(** * Bill splitter: allocation, ledger and rebuild

    A shallow embedding of the allocation-and-ledger engine:

    - [core/utils/money.py]      : [EPS], [qround]
    - [core/models/splits.py]    : [EqualSplit], [ExactSplit], [ShareSplit]
    - [core/models/expense.py]   : [Expense], [Settlement]
    - [core/models/ledger.py]    : [Ledger]
    - [core/services/cache.py]   : the in-memory state of [CacheService]
    - [core/services/auth.py]    : [AuthService]
    - [core/services/manager.py] : [ExpenseManager]

    Numbers.  The program computes with Python floats.  The embedding has
    them twice.  In the main development a float is an exact rational
    ([Q]): [+], [-], [*], [/] are exact, [round(x, 2)] is rounding to the
    nearest hundredth, ties to the even hundredth, and equality of amounts
    is [Qeq] ([==]).  The general theorems are proved there, and are stated
    for the inputs on which binary64 resolves a cent with room to spare:
    amounts up to [max_amount], and, where the remainder loop has to come
    to rest, amounts that are whole cents.  Module [Binary64] has the same
    functions on doubles ([PrimFloat]); it runs the code on the inputs
    outside that range, where the representation decides what the code
    does.

    Dictionaries.  A [dict] whose iteration order matters (participants,
    allocations) is an association list in insertion order; the ledger's
    nested [defaultdict] is a [gmap string (gmap string Q)].

    Exceptions.  A function that can raise returns a [result]. *)

From Stdlib Require Import QArith Qround Qabs Lqa Lia ZArith.
From Stdlib Require Import Sorting.Sorted Sorting.Permutation.
From Stdlib Require Import PrimFloat FloatOps SpecFloat.
From stdpp Require Import base gmap strings list pretty.

Local Open Scope Q_scope.
Set Warnings "-inexact-float".

(** ** Exceptions *)

Inductive error : Type :=
  | ExactTotalsError        (* ValueError("Exact split totals ..., not ...") *)
  | SharesNotPositiveError  (* ValueError("All shares must be positive.") *)
  | UnknownStrategyError (name : string)
                            (* ValueError("Unknown split strategy: ...") *)
  | ZeroDivisionError       (* x / 0 and i % 0 *)
  | IndexError.             (* list index out of range *)

Inductive result (A : Type) : Type :=
  | Ok (a : A)
  | Err (e : error).
Arguments Ok {A} a.
Arguments Err {A} e.

#[global] Instance result_ret : MRet result := fun A a => Ok a.

#[global] Instance result_bind : MBind result := fun A B k r =>
  match r with
  | Ok a => k a
  | Err e => Err e
  end.

(** ** core/utils/money.py *)

Definition EPS : Q := 0.000001.

(** The integer nearest to [x], ties to the even integer. *)
Definition round_half_even (x : Q) : Z :=
  let f := Qfloor x in
  match Qcompare (x - inject_Z f) (1 # 2) with
  | Lt => f
  | Gt => (f + 1)%Z
  | Eq => if Z.even f then f else (f + 1)%Z
  end.

(** Python's [round(x, 2)]. *)
Definition round2 (x : Q) : Q := Qmake (round_half_even (x * 100)) 100.

(** [qround(x)] with the default [ndigits = 2]. *)
Definition qround (x : Q) : Q :=
  let v := round2 (x + 0) in
  if Qlt_le_dec (Qabs v) EPS then 0 else v.

(** Python's [sum]: left to right, starting from [0]. *)
Definition py_sum (l : list Q) : Q := fold_left Qplus l 0.

(** ** core/models/splits.py *)

(** A participants mapping, in insertion order. *)
Abbreviation participants_t := (list (string * Q)).
Abbreviation allocation_t := (list (string * Q)).

(** The remainder loop shared, as the same text, by [EqualSplit.split] and
    [ShareSplit.split]:

      while abs(diff) >= 0.01 - EPS and i < 1000:
          idx = i % n
          shares[idx] = qround(shares[idx] + step)
          diff = qround(amount - sum(shares))
          i += 1

    [fuel] is [1000 - i]. *)
Fixpoint adjust (fuel : nat) (amount : Q) (n : nat) (step : Q)
    (i : nat) (shares : list Q) (diff : Q) : result (list Q) :=
  if Qle_bool (0.01 - EPS) (Qabs diff) then
    match fuel with
    | O => Ok shares
    | S fuel' =>
        match n with
        | O => Err ZeroDivisionError
        | S _ =>
            let idx := (i mod n)%nat in
            match shares !! idx with
            | None => Err IndexError
            | Some s =>
                let shares' := <[idx := qround (s + step)]> shares in
                adjust fuel' amount n step (S i) shares'
                  (qround (amount - py_sum shares'))
            end
        end
    end
  else Ok shares.

Definition step_of (diff : Q) : Q :=
  if Qlt_le_dec 0 diff then 0.01 else - 0.01.

Definition EqualSplit_split (amount : Q) (participants : participants_t)
  : result allocation_t :=
  let users := map fst participants in
  let n := length users in
  match n with
  | O => Err ZeroDivisionError
  | S _ =>
      let base := amount / inject_Z (Z.of_nat n) in
      let shares := map (fun _ => qround base) users in
      let diff := qround (amount - py_sum shares) in
      shares' ← adjust 1000 amount n (step_of diff) 0 shares diff;
      Ok (zip users shares')
  end.

Definition ExactSplit_split (amount : Q) (participants : participants_t)
  : result allocation_t :=
  let total := py_sum (map snd participants) in
  if Qlt_le_dec (0.01 + EPS) (Qabs (total - amount)) then Err ExactTotalsError
  else Ok (map (fun '(name, v) => (name, qround v)) participants).

Definition ShareSplit_split (amount : Q) (participants : participants_t)
  : result allocation_t :=
  let weights := participants in
  if existsb (fun w => Qle_bool w 0) (map snd weights)
  then Err SharesNotPositiveError
  else
    let total_w := py_sum (map snd weights) in
    let raw := map (fun '(k, w) => (k, amount * (w / total_w))) weights in
    let users := map fst raw in
    let shares := map (fun '(_, r) => qround r) raw in
    let diff := qround (amount - py_sum shares) in
    shares' ← adjust 1000 amount (length users) (step_of diff) 0 shares diff;
    Ok (zip users shares').

Inductive SplitStrategy : Type := EqualSplit | ExactSplit | ShareSplit.

Definition split (s : SplitStrategy) : Q -> participants_t -> result allocation_t :=
  match s with
  | EqualSplit => EqualSplit_split
  | ExactSplit => ExactSplit_split
  | ShareSplit => ShareSplit_split
  end.

(** ** The allocator at binary64

    The same text of [core/utils/money.py] and [core/models/splits.py],
    computed on doubles, to run the code on inputs where the rounding of
    the representation decides what it does. *)

Module Binary64.

(** The exact value of a finite double. *)
Definition to_Q (x : float) : Q :=
  match Prim2SF x with
  | S754_finite s m e =>
      let v := match e with
               | Z0 => inject_Z (Z.pos m)
               | Z.pos p => inject_Z (Z.pos m * 2 ^ Z.pos p)
               | Z.neg p => Qmake (Z.pos m) (2 ^ p)
               end in
      if s then - v else v
  | _ => 0
  end.

(** The double nearest to a positive rational, ties to the even
    mantissa. *)
Definition nearest_pos (q : Q) : float :=
  let e0 := (Z.log2 (Qnum q) - Z.log2 (Z.pos (Qden q)) - 52)%Z in
  let scale (e : Z) : Q :=
    match e with
    | Z0 => q
    | Z.pos p => q / inject_Z (2 ^ Z.pos p)
    | Z.neg p => q * inject_Z (2 ^ Z.pos p)
    end in
  let e1 :=
    if Qlt_le_dec (scale e0) (inject_Z (2 ^ 52)) then (e0 - 1)%Z else e0 in
  let e2 :=
    if Qlt_le_dec (scale e1) (inject_Z (2 ^ 53)) then e1 else (e1 + 1)%Z in
  let e := Z.max e2 (-1074) in
  match round_half_even (scale e) with
  | Z.pos m => SF2Prim (S754_finite false m e)
  | _ => PrimFloat.zero
  end.

Definition of_Q (q : Q) : float :=
  match Qnum q with
  | Z0 => PrimFloat.zero
  | Z.pos _ => nearest_pos q
  | Z.neg _ => PrimFloat.opp (nearest_pos (- q))
  end.

(** Python's [round(x, 2)] on a double: the exact value is rounded to
    hundredths, ties to even, and the double nearest to that decimal is
    returned. *)
Definition round2 (x : float) : float :=
  if PrimFloat.is_finite x
  then
    match round_half_even (to_Q x * 100) with
    | Z0 => if PrimFloat.get_sign x then PrimFloat.neg_zero else PrimFloat.zero
    | k => of_Q (Qmake k 100)
    end
  else x.

Definition EPS : float := 1e-6%float.

Definition qround (x : float) : float :=
  let v := round2 (PrimFloat.add x 0%float) in
  if PrimFloat.ltb (PrimFloat.abs v) EPS then 0%float else v.

(** [sum(l)]: the additions one after the other, from the left. *)
Definition py_sum (l : list float) : float :=
  fold_left PrimFloat.add l 0%float.

Fixpoint adjust (fuel : nat) (amount : float) (n : nat) (step : float)
    (i : nat) (shares : list float) (diff : float) : result (list float) :=
  if PrimFloat.leb (PrimFloat.sub 0.01%float EPS) (PrimFloat.abs diff) then
    match fuel with
    | O => Ok shares
    | S fuel' =>
        match n with
        | O => Err ZeroDivisionError
        | S _ =>
            let idx := (i mod n)%nat in
            match shares !! idx with
            | None => Err IndexError
            | Some s =>
                let shares' :=
                  <[idx := qround (PrimFloat.add s step)]> shares in
                adjust fuel' amount n step (S i) shares'
                  (qround (PrimFloat.sub amount (py_sum shares')))
            end
        end
    end
  else Ok shares.

Definition step_of (diff : float) : float :=
  if PrimFloat.ltb 0%float diff then 0.01%float else (-0.01)%float.

(** [len(users)] as a double. *)
Definition of_nat (n : nat) : float := of_Q (inject_Z (Z.of_nat n)).

Definition EqualSplit_split (amount : float) (participants : list (string * float))
  : result (list (string * float)) :=
  let users := map fst participants in
  let n := length users in
  match n with
  | O => Err ZeroDivisionError
  | S _ =>
      let base := PrimFloat.div amount (of_nat n) in
      let shares := map (fun _ => qround base) users in
      let diff := qround (PrimFloat.sub amount (py_sum shares)) in
      shares' ← adjust 1000 amount n (step_of diff) 0 shares diff;
      Ok (zip users shares')
  end.

Definition ShareSplit_split (amount : float) (participants : list (string * float))
  : result (list (string * float)) :=
  let weights := participants in
  if existsb (fun w => PrimFloat.leb w 0%float) (map snd weights)
  then Err SharesNotPositiveError
  else
    let total_w := py_sum (map snd weights) in
    let raw :=
      map (fun '(k, w) => (k, PrimFloat.mul amount (PrimFloat.div w total_w)))
        weights in
    let users := map fst raw in
    let shares := map (fun '(_, r) => qround r) raw in
    let diff := qround (PrimFloat.sub amount (py_sum shares)) in
    shares' ← adjust 1000 amount (length users) (step_of diff) 0 shares diff;
    Ok (zip users shares').

End Binary64.

(** ** core/models/expense.py *)

(** [date] is the [datetime], as a point on the time line. *)
Module Expense.
Record t : Type := mk {
  id : string;
  description : string;
  amount : Q;
  payer : string;
  participants : participants_t;
  split_strategy : SplitStrategy;
  notes : string;
  date : Z;
  group_id : option string
}.

Definition allocations (self : t) : result allocation_t :=
  split (split_strategy self) (amount self) (participants self).
End Expense.

Module Settlement.
Record t : Type := mk {
  id : string;
  payer : string;
  payee : string;
  amount : Q;
  description : string;
  date : Z;
  notes : string
}.
End Settlement.

(** ** core/models/ledger.py *)

Module Ledger.
(** [balance[A][B] > 0] means A owes B that amount. *)
Record t : Type := mk { balance : gmap string (gmap string Q) }.

(** [Ledger()] *)
Definition new : t := mk ∅.

(** [balance[a][b] = f(balance[a][b])] on the nested [defaultdict]: a
    missing row is created empty and a missing cell reads [0.0]. *)
Definition update (a b : string) (f : Q -> Q) (self : t) : t :=
  let row := default ∅ (balance self !! a) in
  mk (<[a := <[b := f (default 0 (row !! b))]> row]> (balance self)).

(** The stored cell, if there is one. *)
Definition entry (self : t) (a b : string) : option Q :=
  balance self !! a ≫= fun row => row !! b.

(** The body of the loop of [apply_expense]. *)
Definition owe (payer : string) (self : t) (item : string * Q) : t :=
  let '(user, owed) := item in
  if decide (user = payer) then self
  else update user payer (fun x => x + owed) self.

Definition apply_expense (exp : Expense.t) (self : t) : result t :=
  alloc ← Expense.allocations exp;
  Ok (fold_left (owe (Expense.payer exp)) alloc self).

Definition apply_settlement (st : Settlement.t) (self : t) : t :=
  update (Settlement.payer st) (Settlement.payee st)
    (fun x => x - Settlement.amount st) self.

(** [abs(amt) > 1e-9] *)
Definition significant (amt : Q) : bool :=
  if Qlt_le_dec 0.000000001 (Qabs amt) then true else false.

(** First loop of [net_for]: what I owe others. *)
Definition i_owe (other : string) (amt : Q) (result : gmap string Q)
  : gmap string Q :=
  if significant amt then <[other := amt]> result else result.

(** Second loop of [net_for]: what others owe me. *)
Definition owes_me (me : string) (other : string) (mp : gmap string Q)
    (result : gmap string Q) : gmap string Q :=
  if decide (other = me) then result
  else
    let amt := default 0 (mp !! me) in
    if significant amt
    then <[other := default 0 (result !! other) - amt]> result
    else result.

Definition net_for (self : t) (me : string) : gmap string Q :=
  let result := map_fold i_owe ∅ (default ∅ (balance self !! me)) in
  let result := map_fold (owes_me me) result (balance self) in
  round2 <$> result.
End Ledger.

(** ** core/services/cache.py and core/services/manager.py *)

(** The persisted records.  [date] is the ISO-8601 string read back by
    [datetime.fromisoformat], as a point on the time line.  The records
    are those the program itself wrote: every key present, every field of
    its type, and dates that compare with one another.  A record of
    another shape (a key missing, an amount that is no number, a date with
    a UTC offset next to one without) makes the source raise where these
    typed records cannot. *)
Module ExpenseData.
Record t : Type := mk {
  id : string;
  description : string;
  amount : Q;
  payer : string;
  participants : participants_t;
  split_strategy : string;
  notes : string;
  date : Z;
  group_id : option string
}.
End ExpenseData.

Module SettlementData.
Record t : Type := mk {
  id : string;
  payer : string;
  payee : string;
  amount : Q;
  description : string;
  date : Z;
  notes : string
}.
End SettlementData.

(** [CacheService.state]: the four lists of the JSON snapshot.  Reading
    and writing the file ([__init__], [save]) is left out. *)
Module UserData.
Record t : Type := mk { username : string; name : string; password : string }.
End UserData.

Module GroupData.
Record t : Type := mk { id : string; name : string }.
End GroupData.

Module CacheService.
Record t : Type := mk {
  users : list UserData.t;
  groups : list GroupData.t;
  expenses : list ExpenseData.t;
  settlements : list SettlementData.t
}.

(** The default empty state. *)
Definition empty : t := mk [] [] [] [].

Definition add_user (username name password : string) (self : t) : t :=
  if existsb (fun u => bool_decide (UserData.username u = username)) (users self)
  then self
  else mk (users self ++ [UserData.mk username name password])
         (groups self) (expenses self) (settlements self).

Definition get_user (self : t) (username : string) : option UserData.t :=
  find (fun u => bool_decide (UserData.username u = username)) (users self).

Definition add_group (gid name : string) (self : t) : t :=
  if existsb (fun g => bool_decide (GroupData.id g = gid)) (groups self)
  then self
  else mk (users self) (groups self ++ [GroupData.mk gid name])
         (expenses self) (settlements self).

Definition get_group (self : t) (gid : string) : option GroupData.t :=
  find (fun g => bool_decide (GroupData.id g = gid)) (groups self).

Definition add_expense (data : ExpenseData.t) (self : t) : t :=
  mk (users self) (groups self) (expenses self ++ [data]) (settlements self).

Definition list_expenses (self : t) : list ExpenseData.t := expenses self.

Definition add_settlement (data : SettlementData.t) (self : t) : t :=
  mk (users self) (groups self) (expenses self) (settlements self ++ [data]).

Definition list_settlements (self : t) : list SettlementData.t :=
  settlements self.
End CacheService.

(** ** core/services/auth.py *)

Module AuthService.
(** [_users]: username to a record, itself a [dict] of strings. *)
Record t : Type := mk { _users : gmap string (gmap string string) }.

Definition demo_users : gmap string (gmap string string) :=
  {[ "you@example.com" := {[ "password" := "pass123"; "name" := "You" ]};
     "sam@example.com" := {[ "password" := "pass123"; "name" := "Sam" ]} ]}.

(** [seed_users or {...}]: [None] and the empty dict both give the demo
    registry. *)
Definition __init__ (seed_users : option (gmap string (gmap string string)))
  : t :=
  match seed_users with
  | Some seed => if decide (seed = ∅) then mk demo_users else mk seed
  | None => mk demo_users
  end.

(** [bool(rec and rec.get("password") == password)]: a missing record
    and an empty record are both falsy. *)
Definition login (self : t) (username password : string) : bool :=
  match _users self !! username with
  | None => false
  | Some rec =>
      if decide (rec = ∅) then false
      else bool_decide (rec !! "password" = Some password)
  end.

Definition get_profile (self : t) (username : string)
  : option (gmap string string) :=
  _users self !! username.
End AuthService.

Inductive event : Type :=
  | expense (e : Expense.t)
  | settlement (s : Settlement.t).

(** A timeline entry [(date, kind, obj)]. *)
Abbreviation entry_t := (Z * event)%type.

(** [list.sort(key=...)] is a stable sort; here it is insertion sort, each
    entry going in front of the first later entry whose key is not
    smaller. *)
Fixpoint insert_by_key (t : entry_t) (l : list entry_t) : list entry_t :=
  match l with
  | [] => [t]
  | u :: l' =>
      if (fst t <=? fst u)%Z then t :: u :: l'
      else u :: insert_by_key t l'
  end.

Definition sort_by_key (l : list entry_t) : list entry_t :=
  fold_right insert_by_key [] l.

Module ExpenseManager.
Record t : Type := mk {
  cache : CacheService.t;
  ledger : Ledger.t
}.

Definition _strategy_map (name : string) : option SplitStrategy :=
  if decide (name = "EqualSplit") then Some EqualSplit
  else if decide (name = "ExactSplit") then Some ExactSplit
  else if decide (name = "ShareSplit") then Some ShareSplit
  else None.

Definition _deserialize_expense (data : ExpenseData.t) : result Expense.t :=
  let strat_name := ExpenseData.split_strategy data in
  match _strategy_map strat_name with
  | None => Err (UnknownStrategyError strat_name)
  | Some strat_cls =>
      Ok (Expense.mk
            (ExpenseData.id data)
            (ExpenseData.description data)
            (ExpenseData.amount data)
            (ExpenseData.payer data)
            (ExpenseData.participants data)
            strat_cls
            (ExpenseData.notes data)
            (ExpenseData.date data)
            (ExpenseData.group_id data))
  end.

Definition _deserialize_settlement (data : SettlementData.t) : Settlement.t :=
  Settlement.mk
    (SettlementData.id data)
    (SettlementData.payer data)
    (SettlementData.payee data)
    (SettlementData.amount data)
    (SettlementData.description data)
    (SettlementData.date data)
    (SettlementData.notes data).

Definition timeline_of (exps : list Expense.t) (sets : list Settlement.t)
  : list entry_t :=
  map (fun e => (Expense.date e, expense e)) exps
  ++ map (fun s => (Settlement.date s, settlement s)) sets.

Definition apply_entry (t : entry_t) (l : Ledger.t) : result Ledger.t :=
  match snd t with
  | expense obj => Ledger.apply_expense obj l
  | settlement obj => Ok (Ledger.apply_settlement obj l)
  end.

(** The final loop of [rebuild_ledger].  The ledger is mutated in place:
    when an entry raises, the entries applied before it stay applied. *)
Fixpoint apply_timeline (timeline : list entry_t) (l : Ledger.t)
  : result unit * Ledger.t :=
  match timeline with
  | [] => (Ok tt, l)
  | t :: timeline' =>
      match apply_entry t l with
      | Ok l' => apply_timeline timeline' l'
      | Err e => (Err e, l)
      end
  end.

(** [rebuild_ledger]: the outcome and the manager it leaves behind. *)
Definition rebuild_ledger (self : t) : result unit * t :=
  let self := mk (cache self) Ledger.new in
  match mapM _deserialize_expense (CacheService.list_expenses (cache self)) with
  | Err e => (Err e, self)
  | Ok exps =>
      let sets := map _deserialize_settlement
                    (CacheService.list_settlements (cache self)) in
      let timeline := sort_by_key (timeline_of exps sets) in
      let '(r, l) := apply_timeline timeline (ledger self) in
      (r, mk (cache self) l)
  end.

(** [exp.split_strategy.__class__.__name__] *)
Definition class_name (s : SplitStrategy) : string :=
  match s with
  | EqualSplit => "EqualSplit"
  | ExactSplit => "ExactSplit"
  | ShareSplit => "ShareSplit"
  end.

Definition _serialize_expense (exp : Expense.t) : ExpenseData.t :=
  ExpenseData.mk
    (Expense.id exp)
    (Expense.description exp)
    (Expense.amount exp)
    (Expense.payer exp)
    (Expense.participants exp)
    (class_name (Expense.split_strategy exp))
    (Expense.notes exp)
    (Expense.date exp)
    (Expense.group_id exp).

Definition _serialize_settlement (st : Settlement.t) : SettlementData.t :=
  SettlementData.mk
    (Settlement.id st)
    (Settlement.payer st)
    (Settlement.payee st)
    (Settlement.amount st)
    (Settlement.description st)
    (Settlement.date st)
    (Settlement.notes st).

(** [add_expense] and [add_settlement]: append the serialised record,
    then rebuild ([cache.save()] writes the file and changes no state). *)
Definition add_expense (exp : Expense.t) (self : t) : result unit * t :=
  rebuild_ledger
    (mk (CacheService.add_expense (_serialize_expense exp) (cache self))
        (ledger self)).

Definition add_settlement (st : Settlement.t) (self : t) : result unit * t :=
  rebuild_ledger
    (mk (CacheService.add_settlement (_serialize_settlement st) (cache self))
        (ledger self)).

Definition balances_for (self : t) (username : string) : gmap string Q :=
  Ledger.net_for (ledger self) username.

(** [v > 0] and [v < 0] *)
Definition is_positive (v : Q) : bool :=
  if Qlt_le_dec 0 v then true else false.
Definition is_negative (v : Q) : bool :=
  if Qlt_le_dec v 0 then true else false.

(** [net.values()], in the map's iteration order. *)
Definition values (net : gmap string Q) : list Q := map snd (map_to_list net).

Definition dashboard_totals (self : t) (username : string) : Q * Q :=
  let net := Ledger.net_for (ledger self) username in
  let you_owe := py_sum (List.filter is_positive (values net)) in
  let others_owe_you := - py_sum (List.filter is_negative (values net)) in
  (round2 you_owe, round2 others_owe_you).
End ExpenseManager.

(** * Specification vocabulary *)

(** What [round_half_even] returns: the nearest integer, and the even one
    of the two at a tie. *)
Definition nearest_even (x : Q) (k : Z) : Prop :=
  (inject_Z k - (1 # 2) < x /\ x < inject_Z k + (1 # 2))
  \/ ((x == inject_Z k + (1 # 2) \/ x == inject_Z k - (1 # 2))
      /\ Z.even k = true).

(** [k] cents, as an amount. *)
Definition cents (k : Z) : Q := k # 100.

(** [shares] holds the whole-cent amounts [ks]. *)
Definition in_cents (shares : list Q) (ks : list Z) : Prop :=
  Forall2 (fun q k => q == cents k) shares ks.

Definition sumZ (ks : list Z) : Z := foldr Z.add 0%Z ks.

(** What is left to hand out, in cents, when the shares are [ks]. *)
Definition remainder (amount : Q) (ks : list Z) : Q :=
  amount * 100 - inject_Z (sumZ ks).

(** The raw shares, each rounded to whole cents. *)
Definition rounded (raws : list Q) : list Z :=
  map (fun r => round_half_even (r * 100)) raws.

(** The allocation adds up to [amount] at currency precision: what is left
    rounds to zero, and nothing is left when [amount] is itself a whole
    number of cents. *)
Definition conserved (amount : Q) (shares : list Q) : Prop :=
  qround (amount - py_sum shares) == 0
  /\ (qround amount == amount -> py_sum shares == amount).

(** The largest amount the general theorems speak about: a million, where
    a double resolves a ten-thousand-millionth and the sum of two thousand
    of them is still right to within [EPS]. *)
Definition max_amount : Q := 1000000.

Definition in_range (x : Q) : Prop := 0 < x /\ x <= max_amount.

(** [x] is a whole number of cents. *)
Definition whole_cents (x : Q) : Prop := qround x == x.

(** The inputs on which the allocator is shown to conserve [amount]: a
    positive whole-cent amount and a non-empty mapping of at most 2001
    participants; in Share mode positive weights, in Exact mode the mode's
    own precondition on whole-cent, non-negative weights. *)
Definition conserving_input (s : SplitStrategy) (amount : Q)
    (ps : participants_t) : Prop :=
  ps <> [] /\ (length ps <= 2001)%nat
  /\ in_range amount /\ whole_cents amount /\
  match s with
  | EqualSplit => True
  | ShareSplit => Forall in_range (map snd ps)
  | ExactSplit =>
      Forall (fun w => whole_cents w /\ 0 <= w) (map snd ps)
      /\ Qabs (py_sum (map snd ps) - amount) <= 0.01 + EPS
  end.

(** How often the loop has stopped at index [j] of [n] after [i]
    iterations: it goes round the list, [idx = i % n]. *)
Definition visits (n i j : nat) : nat :=
  (i / n + (if decide (j < i mod n)%nat then 1 else 0))%nat.

(** The whole-cent shares [ks] after [i] iterations with a step of [s]
    cents. *)
Definition handed_out (s : Z) (n i : nat) (ks : list Z) : list Z :=
  imap (fun j k => (k + s * Z.of_nat (visits n i j))%Z) ks.

(** [amt if abs(amt) > 1e-9], for a cell that may be missing. *)
Definition kept (cell : option Q) : option Q :=
  cell ≫= fun amt => if Ledger.significant amt then Some amt else None.

(** What the second loop of [net_for] makes of [result] at [k]. *)
Definition netted (me : string) (bal : gmap string (gmap string Q))
    (result : gmap string Q) (k : string) : option Q :=
  match bal !! k with
  | Some mp =>
      if decide (k = me) then result !! k
      else
        let amt := default 0 (mp !! me) in
        if Ledger.significant amt then Some (default 0 (result !! k) - amt)
        else result !! k
  | None => result !! k
  end.

(** One counterparty's entry in [net_for], from the two stored cells. *)
Definition net_entry (l : Ledger.t) (me other : string) : option Q :=
  match kept (Ledger.entry l me other),
        (if decide (other = me) then None
         else kept (Ledger.entry l other me)) with
  | Some x, Some y => Some (round2 (x - y))
  | Some x, None => Some (round2 x)
  | None, Some y => Some (round2 (0 - y))
  | None, None => None
  end.

(** The ledger holds no balance of an identity against itself. *)
Definition no_self_balance (l : Ledger.t) : Prop :=
  forall a : string, Ledger.entry l a a = None.

(** [balance[me][other] - balance[other][me]], missing cells read as 0. *)
Definition combined (l : Ledger.t) (me other : string) : Q :=
  default 0 (Ledger.entry l me other) - default 0 (Ledger.entry l other me).



(** [timeline] is applied to the ledger [l] entry by entry, first to last,
    each entry to the ledger the one before it left; an expense whose split
    raises ends it, with the ledger as it then is. *)
Inductive applied_in_order :
    list entry_t -> Ledger.t -> result unit * Ledger.t -> Prop :=
  | applied_nil (l : Ledger.t) :
      applied_in_order [] l (Ok tt, l)
  | applied_expense (d : Z) (e : Expense.t) (rest : list entry_t)
        (l l' : Ledger.t) (out : result unit * Ledger.t) :
      Ledger.apply_expense e l = Ok l' ->
      applied_in_order rest l' out ->
      applied_in_order ((d, expense e) :: rest) l out
  | applied_expense_raises (d : Z) (e : Expense.t) (rest : list entry_t)
        (l : Ledger.t) (err : error) :
      Ledger.apply_expense e l = Err err ->
      applied_in_order ((d, expense e) :: rest) l (Err err, l)
  | applied_settlement (d : Z) (s : Settlement.t) (rest : list entry_t)
        (l : Ledger.t) (out : result unit * Ledger.t) :
      applied_in_order rest (Ledger.apply_settlement s l) out ->
      applied_in_order ((d, settlement s) :: rest) l out.

Definition known_strategies : list string :=
  ["EqualSplit"; "ExactSplit"; "ShareSplit"].

(** ** Sample data *)

(** The dinner of the demo scripts: 90, paid by you, split equally. *)
Definition dinner : Expense.t :=
  Expense.mk "e1" "Dinner" 90 "you" [("you", 1); ("sam", 1); ("lee", 1)]
    EqualSplit "" 0 None.

Definition after_dinner : Ledger.t :=
  Ledger.mk {[ "sam" := {[ "you" := 0 + 30.00 ]};
               "lee" := {[ "you" := 0 + 30.00 ]} ]}.

(** Two lunches of 60, split equally between the same two people, each
    paid by one of them. *)
Definition lunch_you : Expense.t :=
  Expense.mk "e1" "Lunch" 60 "you" [("you", 1); ("sam", 1)] EqualSplit "" 0 None.
Definition lunch_sam : Expense.t :=
  Expense.mk "e2" "Lunch" 60 "sam" [("you", 1); ("sam", 1)] EqualSplit "" 1 None.

Definition after_lunches : Ledger.t :=
  Ledger.mk {[ "sam" := {[ "you" := 0 + 30.00 ]};
               "you" := {[ "sam" := 0 + 30.00 ]} ]}.

(** A settlement that sam pays to sam. *)
Definition self_payment : Settlement.t :=
  Settlement.mk "s0" "sam" "sam" 5 "Paid myself" 2 "".

(** A cache whose expense is dated after its settlement, and one with a
    record of an unknown strategy. *)
Definition dinner_late : Expense.t :=
  Expense.mk "e1" "Dinner" 90 "you" [("you", 1); ("sam", 1); ("lee", 1)]
    EqualSplit "" 5 None.

Definition payback_early : Settlement.t :=
  Settlement.mk "s1" "sam" "you" 20 "Partial payback" 3 "".

Definition demo_manager : ExpenseManager.t :=
  ExpenseManager.mk
    (CacheService.mk [] []
       [ExpenseManager._serialize_expense dinner_late]
       [ExpenseManager._serialize_settlement payback_early])
    Ledger.new.

Definition corrupt_record : ExpenseData.t :=
  ExpenseData.mk "e2" "Taxi" 40 "sam" [("you", 1); ("sam", 1)]
    "PercentSplit" "" 7 None.

Definition corrupt_manager : ExpenseManager.t :=
  ExpenseManager.mk
    (CacheService.mk [] []
       [ExpenseManager._serialize_expense dinner_late; corrupt_record]
       [ExpenseManager._serialize_settlement payback_early])
    after_dinner.

(** Three thousand participants, named by their number. *)
Definition crowd : participants_t :=
  map (fun i : nat => (pretty i, 1)) (seq 0 3000).

(** The expense record has a known strategy and that strategy's split
    returns on it. *)
Definition allocatable (d : ExpenseData.t) : Prop :=
  exists (cls : SplitStrategy) (alloc : allocation_t),
    ExpenseManager._strategy_map (ExpenseData.split_strategy d) = Some cls
    /\ split cls (ExpenseData.amount d) (ExpenseData.participants d) = Ok alloc.

(** The demo manager after its rebuild, a later payback and a later taxi
    ride. *)
Definition rebuilt_manager : ExpenseManager.t :=
  snd (ExpenseManager.rebuild_ledger demo_manager).

Definition payback_late : Settlement.t :=
  Settlement.mk "s2" "sam" "you" 10 "Rest of dinner" 9 "".

Definition taxi : Expense.t :=
  Expense.mk "e3" "Taxi" 40 "sam" [("you", 1); ("sam", 1)] EqualSplit "" 9 None.

(** The timeline entry can be applied: a settlement always, an expense
    when its split returns. *)
Definition applicable (t : entry_t) : Prop :=
  match snd t with
  | expense e => exists alloc : allocation_t, Expense.allocations e = Ok alloc
  | settlement _ => True
  end.


(** A registry with two users and one group. *)
Definition registry : CacheService.t :=
  CacheService.add_group "g1" "Trip to NYC"
    (CacheService.add_user "lee@example.com" "Lee" "pass123"
       (CacheService.add_user "sam@example.com" "Sam" "pass123"
          CacheService.empty)).

(** * Worked examples *)

(** Spec section 8, scenarios 1, 3, 4 and 5. *)
Example scenario_equal_90 :
  EqualSplit_split 90 [("you", 1); ("sam", 1); ("lee", 1)]
  = Ok [("you", 30.00); ("sam", 30.00); ("lee", 30.00)].
Proof. vm_compute. reflexivity. Qed.

Example scenario_equal_10_by_3 :
  EqualSplit_split 10 [("A", 1); ("B", 1); ("C", 1)]
  = Ok [("A", 3.34); ("B", 3.33); ("C", 3.33)].
Proof. vm_compute. reflexivity. Qed.

Example scenario_exact_50 :
  ExactSplit_split 50 [("you", 20); ("other", 30)]
  = Ok [("you", 20.00); ("other", 30.00)]
  /\ ExactSplit_split 50 [("you", 20); ("other", 29)] = Err ExactTotalsError.
Proof. vm_compute. split; reflexivity. Qed.

Example scenario_share_100 :
  ShareSplit_split 100 [("you", 1); ("other", 3)]
  = Ok [("you", 25.00); ("other", 75.00)].
Proof. vm_compute. reflexivity. Qed.

(** * Rounding *)

Section Rounding.

Lemma inject_Z_lt_succ (a b : Z) : inject_Z a < inject_Z b + 1 -> (a <= b)%Z.
Proof. unfold Qlt, Qplus, inject_Z; simpl. lia. Qed.

Lemma inject_Z_half (a b : Z) :
  inject_Z a - (1 # 2) <= inject_Z b + (1 # 2) -> (a <= b + 1)%Z.
Proof. unfold Qle, Qplus, Qminus, Qopp, inject_Z; simpl. lia. Qed.

Lemma inject_Z_tie (a b : Z) :
  inject_Z a + (1 # 2) == inject_Z b - (1 # 2) -> (b = a + 1)%Z.
Proof. unfold Qeq, Qplus, Qminus, Qopp, inject_Z; simpl. lia. Qed.


Lemma round_half_even_nearest (x : Q) : nearest_even x (round_half_even x).
Proof.
  unfold round_half_even, nearest_even.
  pose proof (Qfloor_le x) as Hlo. pose proof (Qlt_floor x) as Hhi.
  rewrite inject_Z_plus in Hhi. change (inject_Z 1) with 1 in Hhi.
  destruct (Qcompare_spec (x - inject_Z (Qfloor x)) (1 # 2)) as [He | Hl | Hg].
  - destruct (Z.even (Qfloor x)) eqn:Hev.
    + right. split; [left; lra | done].
    + right. rewrite inject_Z_plus. change (inject_Z 1) with 1.
      split; [right; lra |].
      rewrite Z.even_add, Hev. reflexivity.
  - left. lra.
  - left. rewrite inject_Z_plus. change (inject_Z 1) with 1. lra.
Qed.

Lemma nearest_even_unique (x : Q) (k k' : Z) :
  nearest_even x k -> nearest_even x k' -> k = k'.
Proof.
  unfold nearest_even. intros H H'.
  assert (k <= k' + 1)%Z as H1.
  { apply inject_Z_half. destruct H as [?|[[?|?] _]], H' as [?|[[?|?] _]]; lra. }
  assert (k' <= k + 1)%Z as H2.
  { apply inject_Z_half. destruct H as [?|[[?|?] _]], H' as [?|[[?|?] _]]; lra. }
  destruct (Z.eq_dec k k') as [|Hne]; [done | exfalso].
  assert (k' = k + 1 \/ k = k' + 1)%Z as [-> | ->] by lia.
  - rewrite inject_Z_plus in H'. change (inject_Z 1) with 1 in H'.
    destruct H as [?|[[?|?] Hev]], H' as [?|[[?|?] Hev']]; try lra.
    rewrite Z.even_add, Hev in Hev'. discriminate.
  - rewrite inject_Z_plus in H. change (inject_Z 1) with 1 in H.
    destruct H as [?|[[?|?] Hev]], H' as [?|[[?|?] Hev']]; try lra.
    rewrite Z.even_add, Hev' in Hev. discriminate.
Qed.

Lemma round_half_even_eq (x : Q) (k : Z) :
  nearest_even x k -> round_half_even x = k.
Proof.
  intros H. eapply nearest_even_unique; [apply round_half_even_nearest | done].
Qed.

#[global] Instance round_half_even_proper : Proper (Qeq ==> eq) round_half_even.
Proof.
  intros x y Hxy. apply round_half_even_eq.
  pose proof (round_half_even_nearest y) as H. unfold nearest_even in *.
  rewrite Hxy. exact H.
Qed.

Lemma round_half_even_bounds (x : Q) :
  inject_Z (round_half_even x) - (1 # 2) <= x
  /\ x <= inject_Z (round_half_even x) + (1 # 2).
Proof.
  destruct (round_half_even_nearest x) as [?|[[?|?] _]]; lra.
Qed.

Lemma round_half_even_inject (k : Z) : round_half_even (inject_Z k) = k.
Proof. apply round_half_even_eq. left. lra. Qed.

Lemma round_half_even_opp (x : Q) :
  round_half_even (- x) = (- round_half_even x)%Z.
Proof.
  apply round_half_even_eq.
  pose proof (round_half_even_nearest x) as H. unfold nearest_even in *.
  rewrite inject_Z_opp, Z.even_opp.
  destruct H as [?|[[?|?] Hev]]; [left; lra | right; split; [right; lra | done]
                                 | right; split; [left; lra | done]].
Qed.

Lemma round_half_even_zero (x : Q) :
  round_half_even x = 0%Z <-> - (1 # 2) <= x /\ x <= 1 # 2.
Proof.
  split.
  - intros H. pose proof (round_half_even_bounds x) as Hb.
    rewrite H in Hb. change (inject_Z 0) with 0 in Hb. lra.
  - intros [Hlo Hhi]. apply round_half_even_eq. unfold nearest_even.
    change (inject_Z 0) with 0.
    destruct (Qlt_le_dec (- (1 # 2)) x), (Qlt_le_dec x (1 # 2));
      [left; lra | right; split; [left; lra | done]
      | right; split; [right; lra | done] | lra].
Qed.

End Rounding.

(** * Whole cents *)

Section Cents.




Lemma cents_inject (k : Z) : cents k * 100 == inject_Z k.
Proof. unfold cents, Qeq, Qmult, inject_Z; simpl. lia. Qed.

Lemma cents_add (a b : Z) : cents (a + b) == cents a + cents b.
Proof. unfold cents, Qeq, Qplus; simpl. lia. Qed.

Lemma cents_small (k : Z) : Qabs (cents k) < EPS -> k = 0%Z.
Proof. unfold cents, EPS, Qabs, Qlt; simpl. lia. Qed.

Lemma round2_cents (x : Q) : round2 x = cents (round_half_even (x * 100)).
Proof. reflexivity. Qed.

Lemma qround_cents (x : Q) : qround x == cents (round_half_even (x * 100)).
Proof.
  unfold qround. rewrite round2_cents.
  assert (round_half_even ((x + 0) * 100) = round_half_even (x * 100)) as ->.
  { apply round_half_even_proper. lra. }
  destruct (Qlt_le_dec _ _) as [Hs | _]; [| reflexivity].
  apply cents_small in Hs. rewrite Hs. reflexivity.
Qed.

Lemma qround_eq_cents (x : Q) (k : Z) : x == cents k -> qround x == cents k.
Proof.
  intros H. rewrite qround_cents.
  assert (round_half_even (x * 100) = k) as ->; [| reflexivity].
  rewrite <- (round_half_even_inject k). apply round_half_even_proper.
  rewrite H. apply cents_inject.
Qed.

Lemma sumZ_insert (ks : list Z) (j : nat) (k k' : Z) :
  ks !! j = Some k -> sumZ (<[j := k']> ks) = (sumZ ks - k + k')%Z.
Proof.
  revert j. induction ks as [| a ks IH]; intros [| j] H; simplify_eq/=.
  - lia.
  - rewrite (IH _ H). lia.
Qed.

Lemma fold_left_Qplus (l : list Q) (a : Q) :
  fold_left Qplus l a == a + foldr Qplus 0 l.
Proof.
  revert a. induction l as [| q l IH]; intros a; simpl.
  - lra.
  - rewrite IH. lra.
Qed.

Lemma py_sum_cons (q : Q) (l : list Q) : py_sum (q :: l) == q + py_sum l.
Proof. unfold py_sum. simpl. rewrite !fold_left_Qplus. lra. Qed.

Lemma py_sum_cents (shares : list Q) (ks : list Z) :
  in_cents shares ks -> py_sum shares == cents (sumZ ks).
Proof.
  induction 1 as [| q k shares ks Hq _ IH].
  - reflexivity.
  - rewrite py_sum_cons, IH, Hq. simpl. rewrite cents_add. reflexivity.
Qed.

(** The loop test [abs(diff) >= 0.01 - EPS] on a whole-cent [diff]. *)
Lemma loop_test_cents (d : Q) (k : Z) :
  d == cents k -> Qle_bool (0.01 - EPS) (Qabs d) = true <-> k <> 0%Z.
Proof.
  intros H. rewrite Qle_bool_iff, H.
  unfold cents, EPS, Qabs, Qle; simpl. lia.
Qed.


Lemma diff_cents (amount : Q) (shares : list Q) (ks : list Z) :
  in_cents shares ks ->
  qround (amount - py_sum shares)
  == cents (round_half_even (remainder amount ks)).
Proof.
  intros H. rewrite qround_cents.
  assert (round_half_even ((amount - py_sum shares) * 100)
          = round_half_even (remainder amount ks)) as ->; [| reflexivity].
  apply round_half_even_proper. unfold remainder.
  rewrite (py_sum_cents _ _ H), <- cents_inject. lra.
Qed.

Lemma remainder_insert (amount : Q) (ks : list Z) (j : nat) (k s : Z) :
  ks !! j = Some k ->
  remainder amount (<[j := (k + s)%Z]> ks) == remainder amount ks - inject_Z s.
Proof.
  intros H. unfold remainder. rewrite (sumZ_insert _ _ _ _ H).
  replace (sumZ ks - k + (k + s))%Z with (sumZ ks + s)%Z by lia.
  rewrite inject_Z_plus. lra.
Qed.

End Cents.

(** * The remainder loop *)

Section Adjust.
Variable amount : Q.
Variable n : nat.
Variable s : Z.
Variable step : Q.
Hypothesis sign : s = 1%Z \/ s = (-1)%Z.
Hypothesis step_cents : step == cents s.

Lemma inject_nat_succ (j : nat) :
  inject_Z (Z.of_nat (S j)) == inject_Z (Z.of_nat j) + 1.
Proof. rewrite Nat2Z.inj_succ. unfold Z.succ. rewrite inject_Z_plus. reflexivity. Qed.

Lemma inject_nat_nonneg (j : nat) : 0 <= inject_Z (Z.of_nat j).
Proof. change 0 with (inject_Z 0). rewrite <- Zle_Qle. lia. Qed.

Lemma inject_nat_lt (i j : nat) :
  inject_Z (Z.of_nat i) < inject_Z (Z.of_nat j) -> (i < j)%nat.
Proof. rewrite <- Zlt_Qlt. lia. Qed.

Lemma sign_square (x : Q) :
  inject_Z s * (x - inject_Z s) == inject_Z s * x - 1.
Proof.
  destruct sign as [-> | ->].
  - change (inject_Z 1) with 1. lra.
  - change (inject_Z (-1)) with (-1 # 1). lra.
Qed.

Lemma sign_abs (x : Q) :
  - (1 # 2) <= inject_Z s * x -> inject_Z s * x <= 1 # 2 ->
  - (1 # 2) <= x /\ x <= 1 # 2.
Proof.
  destruct sign as [-> | ->].
  - change (inject_Z 1) with 1. lra.
  - change (inject_Z (-1)) with (-1 # 1). lra.
Qed.

(** The loop started at index [j] on whole-cent shares [ks]: it moves the
    shares at [j, m) by one cent each, in order, and nothing else. *)
Lemma adjust_spec (fuel : nat) :
  forall (j : nat) (shares : list Q) (ks : list Z) (diff : Q),
    in_cents shares ks ->
    length ks = n ->
    diff == cents (round_half_even (remainder amount ks)) ->
    - (1 # 2) <= inject_Z s * remainder amount ks ->
    inject_Z s * remainder amount ks + inject_Z (Z.of_nat j)
      <= inject_Z (Z.of_nat n) * (1 # 2) ->
    exists (shares' : list Q) (ks' : list Z) (m : nat),
      adjust fuel amount n step j shares diff = Ok shares'
      /\ in_cents shares' ks'
      /\ length ks' = n
      /\ (j <= m <= n)%nat
      /\ (m - j <= fuel)%nat
      /\ (forall i,
            ks' !! i
            = (fun k => if decide (j <= i < m)%nat then (k + s)%Z else k)
                <$> ks !! i)
      /\ sumZ ks' = (sumZ ks + s * Z.of_nat (m - j))%Z
      /\ (inject_Z s * remainder amount ks
            <= inject_Z (Z.of_nat fuel) + (1 # 2) ->
          round_half_even (remainder amount ks') = 0%Z).
Proof.
  assert (forall (ks : list Z) (j i : nat),
            ks !! i
            = (fun k => if decide (j <= i < j)%nat then (k + s)%Z else k)
                <$> ks !! i) as Hid.
  { intros ks j i. destruct (ks !! i); simpl; [| reflexivity].
    rewrite decide_False by lia. reflexivity. }
  assert (forall (z : Z) (j : nat), z = (z + s * Z.of_nat (j - j))%Z) as Hz.
  { intros z j. rewrite Nat.sub_diag. simpl. lia. }
  induction fuel as [| fuel IH]; intros j shares ks diff Hc Hlen Hd Hlo Hhi.
  - assert (j <= n)%nat as Hjn.
    { apply Nat.lt_succ_r, inject_nat_lt. rewrite inject_nat_succ.
      pose proof (inject_nat_nonneg j). pose proof (inject_nat_nonneg n). lra. }
    exists shares, ks, j. simpl.
    destruct (Qle_bool _ _) eqn:Ht.
    + repeat split; auto; try lia. intros Hf.
      change (inject_Z (Z.of_nat 0)) with 0 in Hf.
      apply round_half_even_zero, sign_abs; lra.
    + repeat split; auto; try lia. intros _.
      destruct (Z.eq_dec (round_half_even (remainder amount ks)) 0%Z) as [|Hne];
        [done |].
      apply (loop_test_cents _ _ Hd) in Hne. congruence.
  - assert (j <= n)%nat as Hjn.
    { apply Nat.lt_succ_r, inject_nat_lt. rewrite inject_nat_succ.
      pose proof (inject_nat_nonneg j). pose proof (inject_nat_nonneg n). lra. }
    simpl. destruct (Qle_bool _ _) eqn:Ht.
    + apply (loop_test_cents _ _ Hd) in Ht.
      assert (1 # 2 < inject_Z s * remainder amount ks) as Hbig.
      { apply Qnot_le_lt. intros Hle. apply Ht.
        apply round_half_even_zero, sign_abs; lra. }
      assert (j < n)%nat as Hj.
      { apply inject_nat_lt. pose proof (inject_nat_nonneg j).
        pose proof (inject_nat_nonneg n). lra. }
      destruct n as [| n'] eqn:En; [lia |]. rewrite <- En in *.
      rewrite (Nat.mod_small j n Hj).
      destruct (lookup_lt_is_Some_2 ks j) as [k Hk]; [lia |].
      destruct (Forall2_lookup_r _ _ _ _ _ Hc Hk) as (q & Hq & Hqk).
      rewrite Hq.
      set (shares1 := <[j := qround (q + step)]> shares).
      set (ks1 := <[j := (k + s)%Z]> ks).
      assert (in_cents shares1 ks1) as Hc1.
      { apply Forall2_insert; [done |]. apply qround_eq_cents.
        rewrite Hqk, step_cents, cents_add. reflexivity. }
      pose proof (remainder_insert amount ks j k s Hk) as Hr. fold ks1 in Hr.
      destruct (IH (S j) shares1 ks1 (qround (amount - py_sum shares1)))
        as (shares' & ks' & m & Hrun & Hc' & Hlen' & Hm & Hcap & Hmove
            & Hsum & Hfin).
      * done.
      * unfold ks1. rewrite length_insert. done.
      * apply diff_cents. done.
      * rewrite Hr, sign_square. lra.
      * rewrite Hr, sign_square, inject_nat_succ. lra.
      * exists shares', ks', m. repeat split; auto; try lia.
        -- intros i. rewrite Hmove. unfold ks1.
           destruct (decide (i = j)) as [-> | Hij].
           ++ rewrite list_lookup_insert_eq by lia. rewrite Hk. simpl.
              rewrite decide_False by lia. rewrite decide_True by lia.
              reflexivity.
           ++ rewrite list_lookup_insert_ne by done.
              destruct (ks !! i); simpl; [| reflexivity].
              destruct (decide (S j <= i < m)%nat), (decide (j <= i < m)%nat);
                try reflexivity; lia.
        -- rewrite Hsum. unfold ks1. rewrite (sumZ_insert _ _ _ _ Hk).
           replace (m - j)%nat with (S (m - S j)) by lia.
           rewrite Nat2Z.inj_succ. lia.
        -- intros Hf. apply Hfin. rewrite Hr, sign_square.
           rewrite inject_nat_succ in Hf. lra.
    + exists shares, ks, j. repeat split; auto; try lia. intros _.
      destruct (Z.eq_dec (round_half_even (remainder amount ks)) 0%Z) as [|Hne];
        [done |].
      apply (loop_test_cents _ _ Hd) in Hne. congruence.
Qed.

End Adjust.

(** * Rounding the raw shares, then the remainder loop *)

Section Rounded.


Lemma rounded_in_cents (raws : list Q) : in_cents (map qround raws) (rounded raws).
Proof.
  unfold in_cents, rounded. induction raws as [| r raws IH]; simpl.
  - constructor.
  - constructor; [apply qround_cents | exact IH].
Qed.

Lemma py_sum_foldr (l : list Q) : py_sum l == foldr Qplus 0 l.
Proof. unfold py_sum. rewrite fold_left_Qplus. lra. Qed.

(** Rounding each of [n] amounts moves their sum by at most [n] half
    cents. *)
Lemma rounded_remainder (raws : list Q) :
  - (inject_Z (Z.of_nat (length raws)) * (1 # 2))
    <= remainder (py_sum raws) (rounded raws)
  /\ remainder (py_sum raws) (rounded raws)
    <= inject_Z (Z.of_nat (length raws)) * (1 # 2).
Proof.
  unfold remainder. induction raws as [| r raws IH].
  - unfold py_sum; simpl. change (inject_Z (Z.of_nat 0)) with 0.
    change (inject_Z 0) with 0. lra.
  - cbn [rounded map sumZ foldr length].
    rewrite py_sum_cons, inject_nat_succ, inject_Z_plus.
    pose proof (round_half_even_bounds (r * 100)).
    unfold rounded, sumZ in IH. lra.
Qed.

Lemma remainder_proper (a b : Q) (ks : list Z) :
  a == b -> remainder a ks == remainder b ks.
Proof. intros H. unfold remainder. rewrite H. reflexivity. Qed.

Lemma adjust_rounded (amount : Q) (raws : list Q) (fuel : nat) :
  raws <> [] ->
  py_sum raws == amount ->
  let shares := map qround raws in
  let diff := qround (amount - py_sum shares) in
  exists (shares' : list Q) (ks' : list Z) (s : Z) (m : nat),
    adjust fuel amount (length raws) (step_of diff) 0 shares diff = Ok shares'
    /\ in_cents shares' ks'
    /\ length ks' = length raws
    /\ (s = 1 \/ s = -1)%Z
    /\ (m <= length raws)%nat
    /\ (m <= fuel)%nat
    /\ (forall i,
          ks' !! i
          = (fun r => if decide (i < m)%nat
                      then (round_half_even (r * 100) + s)%Z
                      else round_half_even (r * 100)) <$> raws !! i)
    /\ sumZ ks' = (sumZ (rounded raws) + s * Z.of_nat m)%Z
    /\ ((length raws <= 2 * fuel + 1)%nat ->
        round_half_even (remainder amount ks') = 0%Z).
Proof.
  intros Hne Hsum shares diff.
  pose proof (rounded_in_cents raws) as Hc. fold shares in Hc.
  pose proof (diff_cents amount _ _ Hc) as Hd. fold diff in Hd.
  destruct (rounded_remainder raws) as [Hlo Hhi].
  rewrite (remainder_proper _ _ (rounded raws) Hsum) in Hlo, Hhi.
  pose proof (round_half_even_bounds (remainder amount (rounded raws))) as Hb.
  set (d := round_half_even (remainder amount (rounded raws))) in *.
  set (s := if Qlt_le_dec 0 diff then 1%Z else (-1)%Z).
  assert (s = 1 \/ s = -1)%Z as Hs by (unfold s; destruct (Qlt_le_dec _ _); auto).
  assert (step_of diff == cents s) as Hstep.
  { unfold step_of, s. destruct (Qlt_le_dec _ _); reflexivity. }
  assert (- (1 # 2) <= inject_Z s * remainder amount (rounded raws)
          /\ inject_Z s * remainder amount (rounded raws)
             <= inject_Z (Z.of_nat (length raws)) * (1 # 2)) as [Hslo Hshi].
  { unfold s. destruct (Qlt_le_dec 0 diff) as [Hpos | Hneg].
    - change (inject_Z 1) with 1.
      assert (1 <= inject_Z d).
      { change 1 with (inject_Z 1). rewrite <- Zle_Qle.
        rewrite Hd in Hpos. unfold cents, Qlt in Hpos. simpl in Hpos. lia. }
      lra.
    - change (inject_Z (-1)) with (-1 # 1).
      assert (inject_Z d <= 0).
      { change 0 with (inject_Z 0). rewrite <- Zle_Qle.
        rewrite Hd in Hneg. unfold cents, Qle in Hneg. simpl in Hneg. lia. }
      lra. }
  destruct (adjust_spec amount (length raws) s (step_of diff) Hs Hstep fuel
              0%nat shares (rounded raws) diff)
    as (shares' & ks' & m & Hrun & Hc' & Hlen' & Hm & Hcap & Hmove & Hsz & Hfin).
  - exact Hc.
  - unfold rounded. apply length_map.
  - exact Hd.
  - exact Hslo.
  - change (inject_Z (Z.of_nat 0)) with 0. lra.
  - exists shares', ks', s, m. repeat split; auto; try lia.
    + intros i. rewrite Hmove. unfold rounded.
      rewrite list_lookup_fmap. destruct (raws !! i); simpl; [| reflexivity].
      destruct (decide (0 <= i < m)%nat), (decide (i < m)%nat);
        try reflexivity; lia.
    + intros Hfuel. apply Hfin.
      assert (inject_Z (Z.of_nat (length raws))
              <= 2 * inject_Z (Z.of_nat fuel) + 1) as Hq.
      { change 2 with (inject_Z 2). change 1 with (inject_Z 1).
        rewrite <- inject_Z_mult, <- inject_Z_plus, <- Zle_Qle. lia. }
      lra.
Qed.

End Rounded.

(** * The three split strategies *)

#[local] Arguments adjust : simpl never.

Section Splits.


Lemma in_cents_conserved (amount : Q) (shares : list Q) (ks : list Z) :
  in_cents shares ks ->
  round_half_even (remainder amount ks) = 0%Z ->
  conserved amount shares.
Proof.
  intros Hc Hz. split.
  - rewrite (diff_cents _ _ _ Hc), Hz. reflexivity.
  - intros Ha. rewrite qround_cents in Ha.
    set (A := round_half_even (amount * 100)) in *.
    assert (remainder amount ks == inject_Z (A - sumZ ks)) as Hr.
    { unfold remainder. rewrite <- Ha at 1.
      rewrite cents_inject. unfold Zminus.
      rewrite inject_Z_plus, inject_Z_opp. lra. }
    rewrite (round_half_even_proper _ _ Hr), round_half_even_inject in Hz.
    rewrite (py_sum_cents _ _ Hc), <- Ha.
    replace (sumZ ks) with A by lia. reflexivity.
Qed.

Lemma py_sum_const (A : Type) (base : Q) (l : list A) :
  py_sum (map (fun _ => base) l) == inject_Z (Z.of_nat (length l)) * base.
Proof.
  induction l as [| a l IH].
  - unfold py_sum; simpl. change (inject_Z (Z.of_nat 0)) with 0. lra.
  - cbn [map length]. rewrite py_sum_cons, IH, inject_nat_succ. lra.
Qed.

Lemma py_sum_scaled (a W : Q) (ws : list Q) :
  py_sum (map (fun w => a * (w / W)) ws) == a * (py_sum ws / W).
Proof.
  induction ws as [| w ws IH].
  - unfold py_sum; simpl. unfold Qdiv. lra.
  - cbn [map]. rewrite !py_sum_cons, IH. unfold Qdiv. lra.
Qed.

Lemma py_sum_pos (ws : list Q) :
  ws <> [] -> Forall (fun w => 0 < w) ws -> 0 < py_sum ws.
Proof.
  intros Hne H. induction H as [| w ws Hw H IH]; [done |].
  rewrite py_sum_cons. destruct ws as [| w' ws].
  - unfold py_sum; simpl. lra.
  - assert (0 < py_sum (w' :: ws)) by (apply IH; done). lra.
Qed.

Lemma existsb_nonpositive (ws : list Q) :
  Forall (fun w => 0 < w) ws -> existsb (fun w => Qle_bool w 0) ws = false.
Proof.
  induction 1 as [| w ws Hw _ IH]; simpl; [done |].
  rewrite IH, orb_false_r. destruct (Qle_bool w 0) eqn:E; [| done].
  apply Qle_bool_iff in E. lra.
Qed.

(** What [EqualSplit.split] returns on a non-empty mapping: the first [m]
    shares are the rounded base [k0] moved by one cent, all to the same
    side, and the others are [k0]. *)
Lemma EqualSplit_split_spec (amount : Q) (ps : participants_t) :
  ps <> [] ->
  exists (shares : list Q) (ks : list Z) (s : Z) (m : nat),
    let k0 :=
      round_half_even (amount / inject_Z (Z.of_nat (length ps)) * 100) in
    EqualSplit_split amount ps = Ok (zip (map fst ps) shares)
    /\ in_cents shares ks
    /\ length ks = length ps
    /\ (s = 1 \/ s = -1)%Z
    /\ (m <= length ps)%nat
    /\ (m <= 1000)%nat
    /\ (forall i, (i < length ps)%nat ->
          ks !! i = Some (if decide (i < m)%nat then (k0 + s)%Z else k0))
    /\ ((length ps <= 2001)%nat ->
        round_half_even (remainder amount ks) = 0%Z).
Proof.
  intros Hne. unfold EqualSplit_split.
  set (users := map fst ps).
  assert (length users = length ps) as Hlen by apply length_map.
  destruct (length users) as [| n'] eqn:En.
  { destruct ps; [done | simpl in Hlen; lia]. }
  rewrite <- En. rewrite <- Hlen.
  set (base := amount / inject_Z (Z.of_nat (length users))).
  set (raws := map (fun _ : string => base) users).
  assert (length raws = length users) as Hlr by apply length_map.
  assert (map (fun _ : string => qround base) users = map qround raws) as ->.
  { unfold raws. rewrite map_map. reflexivity. }
  assert (py_sum raws == amount) as Hsum.
  { unfold raws. rewrite py_sum_const. unfold base. field.
    change 0 with (inject_Z 0). rewrite inject_Z_injective. lia. }
  assert (raws <> []) as Hrne.
  { intros E. rewrite E in Hlr. simpl in Hlr. lia. }
  destruct (adjust_rounded amount raws 1000 Hrne Hsum)
    as (shares & ks & s & m & Hrun & Hc & Hlk & Hs & Hm & Hcap & Hmove & _ & Hfin).
  rewrite Hlr in Hrun. rewrite Hrun. simpl.
  exists shares, ks, s, m.
  repeat split; auto; try lia.
  - intros i Hi. rewrite Hmove.
    destruct (lookup_lt_is_Some_2 raws i) as [r Hr]; [lia |].
    assert (r = base) as ->.
    { unfold raws in Hr. rewrite list_lookup_fmap in Hr.
      destruct (users !! i); inversion Hr; reflexivity. }
    rewrite Hr. simpl. unfold base. rewrite En. reflexivity.
Qed.

(** What [ShareSplit.split] returns on positive weights: the first [m]
    shares are the rounded proportional amounts moved by one cent, all to
    the same side, and the others are the rounded proportional amounts. *)
Lemma ShareSplit_split_spec (amount : Q) (ps : participants_t) :
  ps <> [] ->
  Forall (fun w => 0 < w) (map snd ps) ->
  exists (shares : list Q) (ks : list Z) (s : Z) (m : nat),
    ShareSplit_split amount ps = Ok (zip (map fst ps) shares)
    /\ in_cents shares ks
    /\ length ks = length ps
    /\ (s = 1 \/ s = -1)%Z
    /\ (m <= length ps)%nat
    /\ (m <= 1000)%nat
    /\ (forall i,
          ks !! i
          = (fun p : string * Q =>
               let k :=
                 round_half_even
                   (amount * (snd p / py_sum (map snd ps)) * 100) in
               if decide (i < m)%nat then (k + s)%Z else k) <$> ps !! i)
    /\ ((length ps <= 2001)%nat ->
        round_half_even (remainder amount ks) = 0%Z).
Proof.
  intros Hne Hpos. unfold ShareSplit_split.
  rewrite (existsb_nonpositive _ Hpos).
  set (W := py_sum (map snd ps)).
  assert (0 < W) as HW.
  { apply py_sum_pos; [| done]. destruct ps; done. }
  set (raw := map (fun '(k, w) => (k, amount * (w / W))) ps).
  set (raws := map (fun w => amount * (w / W)) (map snd ps)).
  assert (map (fun '(_, r) => qround r) raw = map qround raws) as ->.
  { unfold raw, raws. rewrite !map_map. apply map_ext. intros [k w]. done. }
  assert (map fst raw = map fst ps) as Hfst.
  { unfold raw. rewrite map_map. apply map_ext. intros [k w]. done. }
  rewrite Hfst.
  assert (length raws = length ps) as Hlr.
  { unfold raws. rewrite !length_map. reflexivity. }
  assert (length (map fst ps) = length raws) as -> by (rewrite length_map; lia).
  assert (py_sum raws == amount) as Hsum.
  { unfold raws. rewrite py_sum_scaled. fold W. field. lra. }
  assert (raws <> []) as Hrne.
  { intros E. rewrite E in Hlr. destruct ps; [done | simpl in Hlr; lia]. }
  destruct (adjust_rounded amount raws 1000 Hrne Hsum)
    as (shares & ks & s & m & Hrun & Hc & Hlk & Hs & Hm & Hcap & Hmove & _ & Hfin).
  rewrite Hrun. simpl.
  exists shares, ks, s, m. repeat split; auto; try lia.
  - intros i. rewrite Hmove. unfold raws.
    rewrite !list_lookup_fmap. destruct (ps !! i) as [[k w] |]; reflexivity.
Qed.

End Splits.

(** * The loop goes round the list *)

Lemma adjust_O (amount : Q) (n : nat) (step : Q) (i : nat) (shares : list Q)
    (diff : Q) :
  adjust 0 amount n step i shares diff = Ok shares.
Proof. unfold adjust. destruct (Qle_bool _ _); reflexivity. Qed.

Lemma adjust_S (fuel : nat) (amount : Q) (n : nat) (step : Q) (i : nat)
    (shares : list Q) (diff : Q) :
  adjust (S fuel) amount n step i shares diff
  = if Qle_bool (0.01 - EPS) (Qabs diff) then
      match n with
      | O => Err ZeroDivisionError
      | S _ =>
          match shares !! (i mod n)%nat with
          | None => Err IndexError
          | Some s =>
              adjust fuel amount n step (S i)
                (<[(i mod n)%nat := qround (s + step)]> shares)
                (qround (amount
                         - py_sum (<[(i mod n)%nat := qround (s + step)]> shares)))
          end
      end
    else Ok shares.
Proof. reflexivity. Qed.

Lemma visits_succ (n i j : nat) :
  n <> 0%nat -> (j < n)%nat ->
  visits n (S i) j
  = (visits n i j + (if decide (j = i mod n)%nat then 1 else 0))%nat.
Proof.
  intros Hn Hj. unfold visits.
  pose proof (Nat.div_mod_eq i n) as Hi.
  pose proof (Nat.div_mod_eq (S i) n) as HSi.
  pose proof (Nat.mod_upper_bound i n Hn) as Hr.
  pose proof (Nat.mod_upper_bound (S i) n Hn) as HSr.
  destruct (decide (S (i mod n) < n)%nat) as [Hlt | Hge].
  - destruct (Nat.div_mod_unique n (S i / n) (i / n) (S i mod n) (S (i mod n)))
      as [-> ->]; [lia | lia | lia |].
    repeat case_decide; lia.
  - destruct (Nat.div_mod_unique n (S i / n) (S (i / n)) (S i mod n) 0)
      as [-> ->]; [lia | lia | lia |].
    repeat case_decide; lia.
Qed.

Lemma visits_spread (n i j j' : nat) :
  (visits n i j <= visits n i j' + 1)%nat.
Proof. unfold visits. repeat case_decide; lia. Qed.

Lemma handed_out_lookup (s : Z) (n i : nat) (ks : list Z) (j : nat) :
  handed_out s n i ks !! j
  = (fun k => (k + s * Z.of_nat (visits n i j))%Z) <$> ks !! j.
Proof. unfold handed_out. apply list_lookup_imap. Qed.

Lemma handed_out_length (s : Z) (n i : nat) (ks : list Z) :
  length (handed_out s n i ks) = length ks.
Proof. unfold handed_out. apply length_imap. Qed.

Lemma handed_out_0 (s : Z) (n : nat) (ks : list Z) :
  n <> 0%nat -> handed_out s n 0 ks = ks.
Proof.
  intros Hn. apply list_eq. intros j. rewrite handed_out_lookup.
  destruct (ks !! j) as [k |]; [| reflexivity]. simpl. f_equal.
  unfold visits. rewrite Nat.Div0.div_0_l, Nat.Div0.mod_0_l.
  rewrite decide_False by lia. simpl. lia.
Qed.

Lemma handed_out_succ (s : Z) (n i : nat) (ks : list Z) (k : Z) :
  n <> 0%nat -> length ks = n ->
  handed_out s n i ks !! (i mod n)%nat = Some k ->
  handed_out s n (S i) ks
  = <[(i mod n)%nat := (k + s)%Z]> (handed_out s n i ks).
Proof.
  intros Hn Hlen Hk. apply list_eq. intros j.
  destruct (decide (j = i mod n)%nat) as [-> | Hne].
  - rewrite list_lookup_insert_eq
      by (rewrite handed_out_length, Hlen; apply Nat.mod_upper_bound, Hn).
    rewrite handed_out_lookup in *.
    destruct (ks !! (i mod n)%nat) as [k0 |]; [| discriminate].
    simpl in *. injection Hk as <-. f_equal.
    rewrite visits_succ by (try apply Nat.mod_upper_bound; exact Hn).
    rewrite decide_True by reflexivity. lia.
  - rewrite list_lookup_insert_ne by congruence.
    rewrite !handed_out_lookup.
    destruct (ks !! j) as [k0 |] eqn:E; [| reflexivity]. simpl. f_equal.
    apply lookup_lt_Some in E.
    rewrite visits_succ by lia. rewrite decide_False by exact Hne. lia.
Qed.

(** Whatever the loop reads in [diff], after [J] iterations every index
    has been moved by [step] once for each time the loop stopped at it. *)
Lemma adjust_round_robin (amount : Q) (n : nat) (s : Z) (step : Q)
    (ks : list Z) (fuel : nat) :
  step == cents s -> n <> 0%nat -> length ks = n ->
  forall (i : nat) (shares : list Q) (diff : Q),
    in_cents shares (handed_out s n i ks) ->
    exists (shares' : list Q) (J : nat),
      adjust fuel amount n step i shares diff = Ok shares'
      /\ (i <= J <= i + fuel)%nat
      /\ in_cents shares' (handed_out s n J ks).
Proof.
  intros Hstep Hn Hlen.
  induction fuel as [| fuel IH]; intros i shares diff Hc.
  - rewrite adjust_O. exists shares, i. split; [reflexivity |].
    split; [lia | exact Hc].
  - rewrite adjust_S. destruct (Qle_bool _ _).
    + destruct n as [| n'] eqn:En; [done |]. rewrite <- En in *.
      assert (i mod n < n)%nat as Hidx by (apply Nat.mod_upper_bound, Hn).
      destruct (lookup_lt_is_Some_2 (handed_out s n i ks) (i mod n)%nat)
        as [k Hk]; [rewrite handed_out_length; lia |].
      destruct (Forall2_lookup_r _ _ _ _ _ Hc Hk) as (q & Hq & Hqk).
      rewrite Hq.
      destruct (IH (S i) (<[(i mod n)%nat := qround (q + step)]> shares)
                  (qround (amount
                           - py_sum (<[(i mod n)%nat := qround (q + step)]>
                                       shares))))
        as (shares' & J & Hrun & HJ & Hc').
      * rewrite (handed_out_succ s n i ks k Hn Hlen Hk).
        apply Forall2_insert; [exact Hc |]. apply qround_eq_cents.
        rewrite Hqk, Hstep, cents_add. reflexivity.
      * exists shares', J. split; [exact Hrun |]. split; [lia | exact Hc'].
    + exists shares, i. split; [reflexivity |]. split; [lia | exact Hc].
Qed.

Lemma step_of_cents (diff : Q) :
  exists s : Z, (s = 1 \/ s = -1)%Z /\ step_of diff == cents s.
Proof.
  unfold step_of. destruct (Qlt_le_dec 0 diff).
  - exists 1%Z. split; [auto | reflexivity].
  - exists (-1)%Z. split; [auto | reflexivity].
Qed.

Lemma in_cents_replicate (A : Type) (users : list A) (q : Q) (k : Z) :
  q == cents k ->
  in_cents (map (fun _ => q) users) (replicate (length users) k).
Proof.
  intros H. unfold in_cents. induction users as [| u users IH]; simpl.
  - constructor.
  - constructor; [exact H | exact IH].
Qed.

(** What [EqualSplit.split] returns on a non-empty mapping, from the way
    the loop walks the list alone: the rounded base [k0], moved by one
    cent for every visit of the loop, [J] iterations in all. *)
Lemma EqualSplit_split_round_robin (amount : Q) (ps : participants_t) :
  ps <> [] ->
  exists (shares : list Q) (s : Z) (J : nat),
    let n := length ps in
    let k0 := round_half_even (amount / inject_Z (Z.of_nat n) * 100) in
    EqualSplit_split amount ps = Ok (zip (map fst ps) shares)
    /\ (s = 1 \/ s = -1)%Z
    /\ (J <= 1000)%nat
    /\ length shares = n
    /\ forall (j : nat) (q : Q),
         shares !! j = Some q ->
         q == cents (k0 + s * Z.of_nat (visits n J j)).
Proof.
  intros Hne. unfold EqualSplit_split.
  set (users := map fst ps).
  assert (length users = length ps) as Hlen by apply length_map.
  destruct (length users) as [| n'] eqn:En.
  { destruct ps; [done | simpl in Hlen; lia]. }
  rewrite <- En in Hlen |- *. rewrite <- Hlen.
  set (base := amount / inject_Z (Z.of_nat (length users))).
  set (k0 := round_half_even (base * 100)).
  set (shares0 := map (fun _ : string => qround base) users).
  set (diff := qround (amount - py_sum shares0)).
  destruct (step_of_cents diff) as (s & Hs & Hstep).
  assert (length users <> 0)%nat as Hn by lia.
  destruct (adjust_round_robin amount (length users) s (step_of diff)
              (replicate (length users) k0) 1000 Hstep Hn
              (length_replicate _ _) 0%nat shares0 diff)
    as (shares & J & Hrun & HJ & Hc).
  { rewrite handed_out_0 by exact Hn.
    apply in_cents_replicate, qround_cents. }
  rewrite Hrun. simpl. exists shares, s, J.
  split; [reflexivity |]. split; [exact Hs |]. split; [lia |].
  split.
  - rewrite (Forall2_length _ _ _ Hc), handed_out_length.
    apply length_replicate.
  - intros j q Hq.
    destruct (Forall2_lookup_l _ _ _ _ _ Hc Hq) as (k & Hk & Hqk).
    rewrite handed_out_lookup in Hk.
    destruct (replicate (length users) k0 !! j) as [k1 |] eqn:E;
      [| discriminate].
    apply lookup_replicate in E as [-> _]. simpl in Hk.
    injection Hk as <-. exact Hqk.
Qed.

(** * The allocator *)

Section Allocator.

Lemma cents_le (k k' : Z) : (k <= k' + 1)%Z -> cents k - cents k' <= 0.01.
Proof. unfold cents, Qle, Qminus, Qplus, Qopp; simpl. lia. Qed.

Lemma cents_zero (k : Z) : cents k == 0 -> k = 0%Z.
Proof. unfold cents, Qeq; simpl. lia. Qed.

(** [qround] picks a whole number of cents at most half a cent away. *)
Lemma qround_nearest (x : Q) :
  exists k : Z, qround x == cents k /\ Qabs (x - qround x) <= 0.005.
Proof.
  exists (round_half_even (x * 100)). split; [apply qround_cents |].
  rewrite qround_cents. pose proof (round_half_even_bounds (x * 100)) as Hb.
  pose proof (cents_inject (round_half_even (x * 100))) as Hc.
  apply Qabs_Qle_condition. lra.
Qed.

Lemma snd_zip_shares (users : list string) (shares : list Q) :
  length users = length shares -> map snd (zip users shares) = shares.
Proof. intros H. apply snd_zip. lia. Qed.

Lemma fst_zip_users (users : list string) (shares : list Q) :
  length users = length shares -> map fst (zip users shares) = users.
Proof. intros H. apply fst_zip. lia. Qed.

Lemma in_cents_length (shares : list Q) (ks : list Z) :
  in_cents shares ks -> length shares = length ks.
Proof. apply Forall2_length. Qed.



Lemma whole_cents_in_cents (ws : list Q) :
  Forall (fun w => qround w == w) ws -> in_cents ws (rounded ws).
Proof.
  unfold in_cents, rounded. induction 1 as [| w ws Hw _ IH]; simpl.
  - constructor.
  - constructor; [| exact IH]. rewrite <- Hw at 1. apply qround_cents.
Qed.

Lemma ExactSplit_values (ps : participants_t) :
  map snd (map (fun '(name, v) => (name, qround v)) ps)
  = map qround (map snd ps).
Proof. rewrite !map_map. apply map_ext. intros [name v]. reflexivity. Qed.

Lemma ExactSplit_keys (ps : participants_t) :
  map fst (map (fun '(name, v) => (name, qround v)) ps) = map fst ps.
Proof. rewrite !map_map. apply map_ext. intros [name v]. reflexivity. Qed.

Lemma qround_proper (x y : Q) : x == y -> qround x == qround y.
Proof.
  intros H. rewrite !qround_cents.
  rewrite (round_half_even_proper (x * 100) (y * 100)); [reflexivity |].
  rewrite H. reflexivity.
Qed.

Lemma qround_sum_cents (shares : list Q) (ks : list Z) :
  in_cents shares ks -> qround (py_sum shares) == py_sum shares.
Proof.
  intros H. rewrite (py_sum_cents _ _ H) at 2.
  apply qround_eq_cents, py_sum_cents, H.
Qed.

Lemma cents_within (k a : Z) :
  Qabs (cents k - cents a) <= 0.01 + EPS -> Qabs (cents k - cents a) <= 0.01.
Proof.
  intros H. apply Qabs_Qle_condition in H as [H1 H2].
  apply Qabs_Qle_condition.
  unfold cents, EPS, Qle, Qminus, Qplus, Qopp in *; simpl in *. lia.
Qed.

(** Exact mode on whole-cent weights within the tolerance: the weights
    come back as they are, and their sum is at most one cent from the
    amount. *)
Lemma ExactSplit_split_within (amount : Q) (ps : participants_t) :
  whole_cents amount ->
  Forall whole_cents (map snd ps) ->
  Qabs (py_sum (map snd ps) - amount) <= 0.01 + EPS ->
  ExactSplit_split amount ps
  = Ok (map (fun '(name, v) => (name, qround v)) ps)
  /\ qround (py_sum (map qround (map snd ps))) == py_sum (map snd ps)
  /\ Qabs (py_sum (map snd ps) - amount) <= 0.01.
Proof.
  intros Ha Hw Htol. set (ws := map snd ps) in *.
  pose proof (whole_cents_in_cents ws Hw) as Hc.
  split; [| split].
  - unfold ExactSplit_split. fold ws.
    destruct (Qlt_le_dec _ _) as [Hbad | _]; [| reflexivity].
    exfalso. apply (Qlt_not_le _ _ Hbad), Htol.
  - rewrite (qround_sum_cents _ _ (rounded_in_cents ws)).
    rewrite (py_sum_cents _ _ (rounded_in_cents ws)), (py_sum_cents _ _ Hc).
    reflexivity.
  - unfold whole_cents in Ha. rewrite qround_cents in Ha.
    rewrite (py_sum_cents _ _ Hc), <- Ha in Htol |- *.
    apply cents_within, Htol.
Qed.

End Allocator.

(** C1, as stated, fails in Exact mode: weights within the tolerance are
    returned as they are, and their sum is not the amount. *)
Lemma conservation_fails_for_exact :
  0 < 50.00
  /\ ~ (0.01 + EPS < Qabs (py_sum [20.00; 30.01] - 50.00))
  /\ split ExactSplit 50.00 [("you", 20.00); ("other", 30.01)]
     = Ok [("you", 20.00); ("other", 30.01)]
  /\ py_sum (map snd [("you", 20.00); ("other", 30.01)]) == 50.01
  /\ ~ py_sum (map snd [("you", 20.00); ("other", 30.01)]) == 50.00
  /\ ~ qround (50.00 - py_sum (map snd [("you", 20.00); ("other", 30.01)])) == 0.
Proof.
  repeat split; try (vm_compute; congruence).
Qed.

(** C1, amended.  For a positive amount of whole cents, up to
    [max_amount], and a non-empty mapping of at most 2001 participants:
    in Equal and Share mode (Share: every weight positive, up to
    [max_amount]) the split returns amounts over the participants' keys
    whose sum, at currency precision, is the amount, and the remainder the
    loop reads is zero; in Exact mode, on non-negative whole-cent weights
    that meet the mode's tolerance, it returns amounts whose sum, at
    currency precision, is the sum of the weights, at most one cent from
    the amount. *)
Theorem split_conservation (s : SplitStrategy) (amount : Q) (ps : participants_t) :
  conserving_input s amount ps ->
  exists alloc : allocation_t,
    split s amount ps = Ok alloc
    /\ map fst alloc = map fst ps
    /\ match s with
       | ExactSplit =>
           qround (py_sum (map snd alloc)) == qround (py_sum (map snd ps))
           /\ Qabs (qround (py_sum (map snd alloc)) - amount) <= 0.01
       | _ =>
           qround (py_sum (map snd alloc)) == amount
           /\ qround (amount - py_sum (map snd alloc)) == 0
       end.
Proof.
  intros (Hne & Hn & _ & Ha & Hv).
  destruct s; unfold split; cbv beta iota in Hv |- *.
  - destruct (EqualSplit_split_spec amount ps Hne)
      as (shares & ks & s & m & Hrun & Hc & Hlen & _ & _ & _ & _ & Hfin).
    pose proof (in_cents_length _ _ Hc) as Hl.
    exists (zip (map fst ps) shares). split; [exact Hrun |].
    rewrite fst_zip_users, snd_zip_shares by (rewrite length_map; lia).
    split; [reflexivity |].
    destruct (in_cents_conserved amount shares ks Hc (Hfin Hn)) as [H0 Hs].
    split; [| exact H0].
    rewrite (qround_proper _ _ (Hs Ha)). exact Ha.
  - destruct Hv as [Hw Htol].
    assert (Forall whole_cents (map snd ps)) as Hw'.
    { eapply Forall_impl; [exact Hw |]. intros w [H _]. exact H. }
    destruct (ExactSplit_split_within amount ps Ha Hw' Htol)
      as (Hrun & Hsum & Hnear).
    eexists. split; [exact Hrun |].
    rewrite ExactSplit_keys, ExactSplit_values.
    split; [reflexivity |]. split.
    + rewrite Hsum. symmetry.
      apply (qround_sum_cents _ _ (whole_cents_in_cents _ Hw')).
    + rewrite Hsum. exact Hnear.
  - assert (Forall (fun w => 0 < w) (map snd ps)) as Hpos'.
    { eapply Forall_impl; [exact Hv |]. intros w [H _]. exact H. }
    destruct (ShareSplit_split_spec amount ps Hne Hpos')
      as (shares & ks & s & m & Hrun & Hc & Hlen & _ & _ & _ & _ & Hfin).
    pose proof (in_cents_length _ _ Hc) as Hl.
    exists (zip (map fst ps) shares). split; [exact Hrun |].
    rewrite fst_zip_users, snd_zip_shares by (rewrite length_map; lia).
    split; [reflexivity |].
    destruct (in_cents_conserved amount shares ks Hc (Hfin Hn)) as [H0 Hs].
    split; [| exact H0].
    rewrite (qround_proper _ _ (Hs Ha)). exact Ha.
Qed.

Lemma split_conservation_witness :
  exists alloc : allocation_t,
    split ShareSplit 100 [("you", 1); ("other", 3)] = Ok alloc
    /\ map fst alloc = ["you"; "other"]
    /\ qround (py_sum (map snd alloc)) == 100
    /\ qround (100 - py_sum (map snd alloc)) == 0.
Proof.
  apply (split_conservation ShareSplit 100 [("you", 1); ("other", 3)]).
  split; [discriminate |].
  split; [simpl; lia |].
  split; [split; vm_compute; congruence |].
  split; [vm_compute; reflexivity |].
  repeat constructor; vm_compute; congruence.
Defined.


(** C9, as stated, fails on doubles: 258146047461996.9 among three comes
    back with one share 0.015625 above the other two.  At that size a
    double resolves no better than a sixty-fourth, and the step of one
    cent moves a share by that much. *)
Lemma fairness_fails_on_large_amount :
  exists x y z : float,
    Binary64.EqualSplit_split 258146047461996.9%float
      [("a", 1%float); ("b", 1%float); ("c", 1%float)]
    = Ok [("a", x); ("b", y); ("c", z)]
    /\ 0 < Binary64.to_Q 258146047461996.9%float
    /\ Binary64.to_Q x - Binary64.to_Q y == 0.015625
    /\ Binary64.to_Q x - Binary64.to_Q z == 0.015625
    /\ ~ Binary64.to_Q x - Binary64.to_Q y <= 0.01.
Proof.
  eexists _, _, _. split; [vm_compute; reflexivity |].
  repeat split; vm_compute; congruence.
Qed.

(** C9, amended.  In Equal mode, for a positive amount up to [max_amount]
    and any non-empty participants mapping, the split returns and no two
    of the returned amounts differ by more than one cent.  The proof uses
    only that the loop goes round the list, whatever remainder it reads. *)
Theorem EqualSplit_fairness (amount : Q) (ps : participants_t) :
  ps <> [] ->
  in_range amount ->
  exists alloc : allocation_t,
    EqualSplit_split amount ps = Ok alloc
    /\ forall x y : Q,
         x ∈ map snd alloc -> y ∈ map snd alloc -> x - y <= 0.01.
Proof.
  intros Hne _.
  destruct (EqualSplit_split_round_robin amount ps Hne)
    as (shares & s & J & Hrun & Hs & _ & Hl & Hshape).
  exists (zip (map fst ps) shares). split; [exact Hrun |].
  rewrite snd_zip_shares by (rewrite length_map; lia).
  intros x y Hx Hy.
  apply list_elem_of_lookup in Hx as [i Hi], Hy as [j Hj].
  rewrite (Hshape i x Hi), (Hshape j y Hj). apply cents_le.
  pose proof (visits_spread (length ps) J i j).
  pose proof (visits_spread (length ps) J j i).
  destruct Hs as [-> | ->]; lia.
Qed.

Lemma EqualSplit_fairness_witness :
  exists alloc : allocation_t,
    EqualSplit_split 10 [("A", 1); ("B", 1); ("C", 1)] = Ok alloc
    /\ forall x y : Q,
         x ∈ map snd alloc -> y ∈ map snd alloc -> x - y <= 0.01.
Proof.
  apply (EqualSplit_fairness 10 [("A", 1); ("B", 1); ("C", 1)]).
  - discriminate.
  - split; vm_compute; congruence.
Defined.

(** C10.  [EqualSplit.split] divides by the number of participants
    unguarded: the empty mapping is a division by zero, and every non-empty
    mapping gets an allocation over exactly its keys, in order. *)
Theorem EqualSplit_split_total (amount : Q) (ps : participants_t) :
  match ps with
  | [] => EqualSplit_split amount ps = Err ZeroDivisionError
  | _ :: _ =>
      exists alloc : allocation_t,
        EqualSplit_split amount ps = Ok alloc
        /\ map fst alloc = map fst ps
  end.
Proof.
  destruct ps as [| p ps]; [reflexivity |].
  destruct (EqualSplit_split_spec amount (p :: ps))
    as (shares & ks & s & m & Hrun & Hc & Hlen & _); [discriminate |].
  pose proof (in_cents_length _ _ Hc) as Hl.
  exists (zip (map fst (p :: ps)) shares). split; [exact Hrun |].
  apply fst_zip_users. rewrite length_map. lia.
Qed.

(** * The ledger *)

Section LedgerFacts.
Import Ledger.

Lemma entry_update_eq (a b : string) (f : Q -> Q) (l : t) :
  entry (update a b f l) a b = Some (f (default 0 (entry l a b))).
Proof.
  unfold entry, update; simpl. rewrite lookup_insert_eq; simpl.
  rewrite lookup_insert_eq. destruct (balance l !! a); reflexivity.
Qed.

Lemma entry_update_ne (a b a' b' : string) (f : Q -> Q) (l : t) :
  (a', b') <> (a, b) -> entry (update a b f l) a' b' = entry l a' b'.
Proof.
  intros Hne. unfold entry, update; simpl.
  destruct (decide (a' = a)) as [-> | Ha].
  - rewrite lookup_insert_eq; simpl.
    rewrite lookup_insert_ne by congruence.
    destruct (balance l !! a); [reflexivity | apply lookup_empty].
  - rewrite lookup_insert_ne by congruence. reflexivity.
Qed.

(** Cells that the loop of [apply_expense] leaves alone. *)
Lemma entry_fold_owe_other (payer : string) (alloc : allocation_t) :
  forall (l : t) (a b : string),
    ~ (b = payer /\ a <> payer /\ a ∈ map fst alloc) ->
    entry (fold_left (owe payer) alloc l) a b = entry l a b.
Proof.
  induction alloc as [| [user owed] alloc IH]; intros l a b Hn; simpl.
  - reflexivity.
  - rewrite IH.
    + unfold owe. destruct (decide (user = payer)); [reflexivity |].
      apply entry_update_ne. intros [= -> ->]. apply Hn.
      repeat split; auto. simpl. apply list_elem_of_here.
    + intros (Hb & Ha & Hin). apply Hn. repeat split; auto.
      simpl. apply list_elem_of_further. exact Hin.
Qed.

(** The cell of a participant who is not the payer. *)
Lemma entry_fold_owe_participant (payer : string) (alloc : allocation_t) :
  forall (l : t) (user : string) (owed : Q),
    NoDup (map fst alloc) ->
    (user, owed) ∈ alloc ->
    user <> payer ->
    entry (fold_left (owe payer) alloc l) user payer
    = Some (default 0 (entry l user payer) + owed).
Proof.
  induction alloc as [| [u o] alloc IH]; intros l user owed Hnd Hin Hne.
  - inversion Hin.
  - simpl in Hnd. apply NoDup_cons in Hnd as [Hfresh Hnd].
    apply elem_of_cons in Hin as [[= -> ->] | Hin]; simpl.
    + rewrite entry_fold_owe_other by tauto.
      unfold owe. rewrite decide_False by done. apply entry_update_eq.
    + rewrite (IH _ user owed Hnd Hin Hne). do 3 f_equal.
      unfold owe. destruct (decide (u = payer)); [reflexivity |].
      apply entry_update_ne. intros [= ->]. apply Hfresh.
      apply list_elem_of_fmap. exists (u, owed). done.
Qed.


Lemma lookup_i_owe (row : gmap string Q) (k : string) :
  map_fold i_owe ∅ row !! k = kept (row !! k).
Proof.
  revert k.
  apply (map_fold_weak_ind
           (fun r (m : gmap string Q) => forall k, r !! k = kept (m !! k))).
  - intros k. rewrite !lookup_empty. reflexivity.
  - intros i x m r Hi IH k. unfold i_owe.
    destruct (decide (k = i)) as [-> | Hk].
    + rewrite lookup_insert_eq. unfold kept; simpl.
      destruct (significant x).
      * apply lookup_insert_eq.
      * rewrite IH, Hi. reflexivity.
    + rewrite (lookup_insert_ne m) by done. rewrite <- IH.
      destruct (significant x); [apply lookup_insert_ne; done | reflexivity].
Qed.


Lemma lookup_owes_me (me : string) (bal : gmap string (gmap string Q))
    (result : gmap string Q) (k : string) :
  map_fold (owes_me me) result bal !! k = netted me bal result k.
Proof.
  revert k.
  apply (map_fold_weak_ind
           (fun r (m : gmap string (gmap string Q)) =>
              forall k, r !! k = netted me m result k)).
  - intros k. unfold netted. rewrite lookup_empty. reflexivity.
  - intros i mp m r Hi IH k. unfold netted, owes_me.
    pose proof (IH i) as IHi. unfold netted in IHi. rewrite Hi in IHi.
    destruct (decide (k = i)) as [-> | Hk].
    + rewrite lookup_insert_eq.
      destruct (decide (i = me)); [exact IHi |].
      destruct (significant _); [| exact IHi].
      rewrite lookup_insert_eq, IHi. reflexivity.
    + rewrite (lookup_insert_ne m) by done.
      specialize (IH k). unfold netted in IH. rewrite <- IH.
      destruct (decide (i = me)); [reflexivity |].
      destruct (significant _); [apply lookup_insert_ne; done | reflexivity].
Qed.


Lemma kept_significant (cell : option Q) (amt : Q) :
  kept cell = Some amt -> cell = Some amt /\ significant amt = true.
Proof.
  unfold kept. destruct cell as [x |]; simpl; [| done].
  destruct (significant x) eqn:E; [| done]. intros [= ->]. done.
Qed.

Lemma kept_default (cell : option Q) :
  kept cell = if significant (default 0 cell) then Some (default 0 cell) else None.
Proof. destruct cell as [x |]; simpl; reflexivity. Qed.

Lemma lookup_net_for (l : t) (me other : string) :
  net_for l me !! other = net_entry l me other.
Proof.
  unfold net_for, net_entry. rewrite lookup_fmap, lookup_owes_me.
  unfold netted. rewrite lookup_i_owe.
  assert (default ∅ (balance l !! me) !! other = entry l me other) as ->.
  { unfold entry. destruct (balance l !! me); [reflexivity | apply lookup_empty]. }
  destruct (decide (other = me)) as [-> | Hne].
  - destruct (balance l !! me); destruct (kept (entry l me me)); reflexivity.
  - rewrite (kept_default (entry l other me)).
    destruct (balance l !! other) as [mp |] eqn:E.
    + assert (entry l other me = mp !! me) as ->
        by (unfold entry; rewrite E; reflexivity).
      simpl. destruct (significant (default 0 (mp !! me)));
        destruct (kept (entry l me other)); reflexivity.
    + assert (entry l other me = None) as ->
        by (unfold entry; rewrite E; reflexivity).
      simpl. destruct (kept (entry l me other)); reflexivity.
Qed.

End LedgerFacts.

Section NetView.
Import Ledger.

Lemma round2_opp (a b : Q) : a == - b -> round2 a == - round2 b.
Proof.
  intros H. unfold round2.
  assert (round_half_even (a * 100) = (- round_half_even (b * 100))%Z) as ->.
  { rewrite <- round_half_even_opp. apply round_half_even_proper.
    rewrite H. lra. }
  unfold Qeq, Qopp; simpl. lia.
Qed.

Lemma round2_proper (a b : Q) : a == b -> round2 a = round2 b.
Proof. intros H. unfold round2. rewrite (round_half_even_proper _ _ (Qmult_comp _ _ H 100 100 (Qeq_refl 100))). reflexivity. Qed.

Lemma significant_iff (amt : Q) :
  significant amt = true <-> 0.000000001 < Qabs amt.
Proof.
  unfold significant. destruct (Qlt_le_dec _ _) as [H | H].
  - tauto.
  - split; [discriminate | intros H'; lra].
Qed.



End NetView.

(** C3.  [apply_expense] adds to [balance[participant][payer]] exactly the
    participant's allocation, for every participant but the payer; the
    payer's own cell and every other cell stay as they were. *)
Theorem apply_expense_correct (exp : Expense.t) (l : Ledger.t)
    (alloc : allocation_t) :
  Expense.allocations exp = Ok alloc ->
  NoDup (map fst alloc) ->
  exists l' : Ledger.t,
    Ledger.apply_expense exp l = Ok l'
    /\ (forall user owed,
          (user, owed) ∈ alloc -> user <> Expense.payer exp ->
          Ledger.entry l' user (Expense.payer exp)
          = Some (default 0 (Ledger.entry l user (Expense.payer exp)) + owed))
    /\ Ledger.entry l' (Expense.payer exp) (Expense.payer exp)
       = Ledger.entry l (Expense.payer exp) (Expense.payer exp)
    /\ (forall a b,
          ~ (b = Expense.payer exp /\ a <> Expense.payer exp
             /\ a ∈ map fst alloc) ->
          Ledger.entry l' a b = Ledger.entry l a b).
Proof.
  intros Halloc Hnd. unfold Ledger.apply_expense. rewrite Halloc. simpl.
  eexists. split; [reflexivity |]. split; [| split].
  - intros user owed Hin Hne. apply entry_fold_owe_participant; done.
  - apply entry_fold_owe_other. tauto.
  - intros a b Hn. apply entry_fold_owe_other. exact Hn.
Qed.


Lemma apply_expense_correct_witness :
  exists l' : Ledger.t,
    Ledger.apply_expense dinner Ledger.new = Ok l'
    /\ (forall user owed,
          (user, owed) ∈ [("you", 30.00); ("sam", 30.00); ("lee", 30.00)] ->
          user <> "you" ->
          Ledger.entry l' user "you"
          = Some (default 0 (Ledger.entry Ledger.new user "you") + owed))
    /\ Ledger.entry l' "you" "you" = Ledger.entry Ledger.new "you" "you"
    /\ (forall a b,
          ~ (b = "you" /\ a <> "you" /\ a ∈ ["you"; "sam"; "lee"]) ->
          Ledger.entry l' a b = Ledger.entry Ledger.new a b).
Proof.
  apply (apply_expense_correct dinner Ledger.new
           [("you", 30.00); ("sam", 30.00); ("lee", 30.00)]).
  - vm_compute. reflexivity.
  - apply (bool_decide_unpack _). vm_compute. exact I.
Defined.



(** C4.  The code at the failing input: after two lunches of 60 split
    between you and sam, one paid by each, each owes the other 30.  Each
    stored direction passes its own [abs(amt) > 1e-9] guard, the combined
    net is never tested, and [net_for] keeps an entry of 0.00 for sam
    although the combined net is zero, below the epsilon. *)
Lemma net_for_keeps_cancelled_entry :
  (Ledger.apply_expense lunch_you Ledger.new ≫= Ledger.apply_expense lunch_sam)
  = Ok after_lunches
  /\ Ledger.net_for after_lunches "you" !! "sam" = Some 0.00
  /\ combined after_lunches "you" "sam" == 0
  /\ ~ EPS <= Qabs (combined after_lunches "you" "sam").
Proof.
  repeat split; try (vm_compute; congruence).
Qed.

(** What [net_for] tests.  A counterparty has an entry exactly when one
    of the two stored directions is larger than 1e-9 in absolute value
    (each direction is tested on its own, and the identity's own row only
    in the first direction); the entry is the difference of the directions
    that pass the test, rounded to two decimals. *)
Theorem net_for_entries (l : Ledger.t) (me other : string) :
  let owed := default 0 (Ledger.entry l me other) in
  let owing :=
    if decide (other = me) then 0 else default 0 (Ledger.entry l other me) in
  (is_Some (Ledger.net_for l me !! other)
   <-> 0.000000001 < Qabs owed \/ 0.000000001 < Qabs owing)
  /\ forall v : Q,
       Ledger.net_for l me !! other = Some v ->
       v == round2 ((if Ledger.significant owed then owed else 0)
                    - (if Ledger.significant owing then owing else 0))
       /\ exists k : Z, v = cents k.
Proof.
  intros owed owing. rewrite lookup_net_for. unfold net_entry.
  rewrite <- !significant_iff.
  rewrite (kept_default (Ledger.entry l me other)). fold owed.
  assert ((if decide (other = me) then None
           else kept (Ledger.entry l other me))
          = if Ledger.significant owing then Some owing else None) as ->.
  { unfold owing. destruct (decide (other = me)); [reflexivity |].
    apply kept_default. }
  destruct (Ledger.significant owed), (Ledger.significant owing); split.
  - split; [auto | by eexists].
  - intros v [= <-]. split; [reflexivity | by eexists].
  - split; [auto | by eexists].
  - intros v [= <-]. split; [| by eexists].
    rewrite (round2_proper owed (owed - 0)); [reflexivity | lra].
  - split; [auto | by eexists].
  - intros v [= <-]. split; [reflexivity | by eexists].
  - split; [intros [? [=]] | intros [[=] | [=]]].
  - intros v [=].
Qed.

(** C5, as stated, fails on a ledger with a self balance: a settlement
    that sam pays to sam leaves [balance[sam][sam] = -5], which
    [net_for] reports as its own entry, and -5 is not its own negation. *)
Lemma net_for_self_entry_not_antisymmetric :
  exists v : Q,
    Ledger.net_for (Ledger.apply_settlement self_payment after_dinner) "sam"
      !! "sam" = Some v
    /\ v == - 5
    /\ ~ v == - v.
Proof.
  eexists. split; [vm_compute; reflexivity |].
  split; vm_compute; congruence.
Qed.

(** C5, amended.  For every ledger and identities A and B that are
    distinct, or when A has no balance against itself above 1e-9, the net
    view is antisymmetric: B has an entry in A's view exactly when A has
    one in B's, and the two entries are each other's negation. *)
Theorem net_for_antisymmetric (l : Ledger.t) (A B : string) :
  A <> B \/ kept (Ledger.entry l A A) = None ->
  (is_Some (Ledger.net_for l A !! B) <-> is_Some (Ledger.net_for l B !! A))
  /\ forall v w : Q,
       Ledger.net_for l A !! B = Some v ->
       Ledger.net_for l B !! A = Some w ->
       v == - w.
Proof.
  intros Hself. rewrite !lookup_net_for. unfold net_entry.
  destruct (decide (B = A)) as [-> | Hne].
  - rewrite decide_True by done.
    destruct Hself as [Hne | Hk]; [done |]. rewrite Hk.
    split; [tauto | intros v w [=]].
  - rewrite (decide_False (P := A = B)) by congruence.
    destruct (kept (Ledger.entry l A B)) as [x |],
             (kept (Ledger.entry l B A)) as [y |]; split.
    + split; intros _; by eexists.
    + intros v w [= <-] [= <-]. apply round2_opp. lra.
    + split; intros _; by eexists.
    + intros v w [= <-] [= <-]. apply round2_opp. lra.
    + split; intros _; by eexists.
    + intros v w [= <-] [= <-].
      rewrite <- (Qopp_involutive (round2 (0 - y))).
      apply Qopp_comp. symmetry. apply round2_opp. lra.
    + tauto.
    + intros v w [=].
Qed.

Lemma net_for_antisymmetric_witness :
  (is_Some (Ledger.net_for (Ledger.apply_settlement self_payment after_dinner)
              "you" !! "sam")
   <-> is_Some (Ledger.net_for
                  (Ledger.apply_settlement self_payment after_dinner)
                  "sam" !! "you"))
  /\ forall v w : Q,
       Ledger.net_for (Ledger.apply_settlement self_payment after_dinner)
         "you" !! "sam" = Some v ->
       Ledger.net_for (Ledger.apply_settlement self_payment after_dinner)
         "sam" !! "you" = Some w ->
       v == - w.
Proof.
  apply (net_for_antisymmetric
           (Ledger.apply_settlement self_payment after_dinner) "you" "sam").
  left. discriminate.
Defined.

(** * The timeline sort *)

Section Sorting.



Lemma insert_by_key_perm (t : entry_t) (l : list entry_t) :
  Permutation (t :: l) (insert_by_key t l).
Proof.
  induction l as [| u l IH]; simpl.
  - reflexivity.
  - destruct (fst t <=? fst u)%Z.
    + reflexivity.
    + rewrite perm_swap. apply perm_skip. exact IH.
Qed.

Lemma sort_by_key_perm (l : list entry_t) : Permutation l (sort_by_key l).
Proof.
  induction l as [| t l IH]; simpl.
  - reflexivity.
  - rewrite <- insert_by_key_perm. apply perm_skip. exact IH.
Qed.





End Sorting.

(** * Rebuilding the ledger *)

Section Rebuild.
Import ExpenseManager.


Lemma _strategy_map_None (name : string) :
  _strategy_map name = None <-> name ∉ known_strategies.
Proof.
  unfold _strategy_map, known_strategies. rewrite !not_elem_of_cons.
  repeat case_decide; subst; split; try done; try tauto.
  intros _. repeat split; try done. apply not_elem_of_nil.
Qed.

Lemma mapM_deserialize_cons (r : ExpenseData.t) (records : list ExpenseData.t) :
  mapM _deserialize_expense (r :: records)
  = (y ← _deserialize_expense r;
     k ← mapM _deserialize_expense records;
     mret (y :: k)).
Proof. reflexivity. Qed.

Lemma _deserialize_expense_known (r : ExpenseData.t) (cls : SplitStrategy) :
  _strategy_map (ExpenseData.split_strategy r) = Some cls ->
  exists e : Expense.t,
    _deserialize_expense r = Ok e
    /\ Expense.split_strategy e = cls
    /\ Expense.date e = ExpenseData.date r.
Proof.
  intros E. unfold _deserialize_expense. rewrite E. eexists.
  split; [reflexivity | split; reflexivity].
Qed.

Lemma _deserialize_expense_unknown (r : ExpenseData.t) :
  _strategy_map (ExpenseData.split_strategy r) = None ->
  _deserialize_expense r
  = Err (UnknownStrategyError (ExpenseData.split_strategy r)).
Proof. intros E. unfold _deserialize_expense. rewrite E. reflexivity. Qed.

(** One unknown tag among the records makes the whole list
    comprehension raise. *)
Lemma mapM_deserialize_unknown (records : list ExpenseData.t)
    (data : ExpenseData.t) :
  data ∈ records ->
  _strategy_map (ExpenseData.split_strategy data) = None ->
  exists bad : ExpenseData.t,
    bad ∈ records
    /\ _strategy_map (ExpenseData.split_strategy bad) = None
    /\ mapM _deserialize_expense records
       = Err (UnknownStrategyError (ExpenseData.split_strategy bad)).
Proof.
  induction records as [| r records IH]; intros Hin Hbad.
  - inversion Hin.
  - destruct (_strategy_map (ExpenseData.split_strategy r)) as [cls |] eqn:E.
    + apply elem_of_cons in Hin as [-> | Hin]; [congruence |].
      destruct (IH Hin Hbad) as (bad & Hb & Hn & Hrun).
      exists bad. split; [apply list_elem_of_further; exact Hb |].
      split; [exact Hn |].
      destruct (_deserialize_expense_known r cls E) as (e & He & _).
      rewrite mapM_deserialize_cons, He. cbn [mbind result_bind].
      rewrite Hrun. reflexivity.
    + exists r. split; [apply list_elem_of_here |]. split; [exact E |].
      rewrite mapM_deserialize_cons, (_deserialize_expense_unknown r E).
      reflexivity.
Qed.

(** [rebuild_ledger] reads the cache only. *)
Lemma rebuild_ledger_cache_only (self : t) (l : Ledger.t) :
  rebuild_ledger (mk (cache self) l) = rebuild_ledger self.
Proof. reflexivity. Qed.

Lemma rebuild_ledger_cache (self : t) :
  cache (snd (rebuild_ledger self)) = cache self.
Proof.
  unfold rebuild_ledger. cbn [cache ledger].
  destruct (mapM _ _); [| reflexivity].
  destruct (apply_timeline _ _). reflexivity.
Qed.


(** Applying in order has one outcome. *)
Lemma applied_in_order_functional (timeline : list entry_t) (l : Ledger.t)
    (out out' : result unit * Ledger.t) :
  applied_in_order timeline l out -> applied_in_order timeline l out' ->
  out = out'.
Proof.
  intros H. revert out'.
  induction H as [l | d e rest l l' out He _ IH | d e rest l err He
                  | d st rest l out _ IH];
    intros out' H'; inversion H'; subst; try congruence.
  - apply IH. congruence.
  - apply IH. assumption.
Qed.

End Rebuild.



(** C7.  One expense record with a tag outside the three known ones makes
    [rebuild_ledger] raise the unknown-strategy error, and the ledger it
    leaves is the fresh empty one: no record has been applied. *)
Theorem rebuild_ledger_unknown_strategy (self : ExpenseManager.t)
    (data : ExpenseData.t) :
  (data ∈ CacheService.list_expenses (ExpenseManager.cache self)) ->
  (ExpenseData.split_strategy data ∉ known_strategies) ->
  exists name : string,
    (name ∉ known_strategies)
    /\ ExpenseManager.rebuild_ledger self
       = (Err (UnknownStrategyError name),
          ExpenseManager.mk (ExpenseManager.cache self) Ledger.new).
Proof.
  intros Hin Hbad. apply _strategy_map_None in Hbad.
  destruct (mapM_deserialize_unknown _ _ Hin Hbad) as (bad & _ & Hn & Hrun).
  exists (ExpenseData.split_strategy bad).
  split; [apply _strategy_map_None; exact Hn |].
  unfold ExpenseManager.rebuild_ledger. cbn [ExpenseManager.cache ExpenseManager.ledger].
  rewrite Hrun. reflexivity.
Qed.

Lemma rebuild_ledger_unknown_strategy_witness :
  exists name : string,
    (name ∉ known_strategies)
    /\ ExpenseManager.rebuild_ledger corrupt_manager
       = (Err (UnknownStrategyError name),
          ExpenseManager.mk (ExpenseManager.cache corrupt_manager) Ledger.new).
Proof.
  apply (rebuild_ledger_unknown_strategy corrupt_manager corrupt_record).
  - apply list_elem_of_further, list_elem_of_here.
  - apply (bool_decide_unpack _). vm_compute. exact I.
Defined.

(** C8.  Rebuilding again, from the manager that a rebuild leaves, gives
    the same outcome and the same balance table; and the table depends on
    the cache alone, whatever ledger the manager held before. *)
Theorem rebuild_ledger_idempotent (self : ExpenseManager.t) :
  ExpenseManager.rebuild_ledger (snd (ExpenseManager.rebuild_ledger self))
  = ExpenseManager.rebuild_ledger self
  /\ ExpenseManager.ledger
       (snd (ExpenseManager.rebuild_ledger
               (snd (ExpenseManager.rebuild_ledger self))))
     = ExpenseManager.ledger (snd (ExpenseManager.rebuild_ledger self))
  /\ forall before : Ledger.t,
       ExpenseManager.rebuild_ledger
         (ExpenseManager.mk (ExpenseManager.cache self) before)
       = ExpenseManager.rebuild_ledger self.
Proof.
  assert (ExpenseManager.rebuild_ledger (snd (ExpenseManager.rebuild_ledger self))
          = ExpenseManager.rebuild_ledger self) as H.
  { destruct (snd (ExpenseManager.rebuild_ledger self)) as [c l] eqn:E.
    pose proof (rebuild_ledger_cache self) as Hc. rewrite E in Hc.
    simpl in Hc. subst c. apply rebuild_ledger_cache_only. }
  split; [exact H |]. split; [rewrite H; reflexivity |].
  intros before. apply rebuild_ledger_cache_only.
Qed.

(** * More on [qround] *)

Lemma round_half_even_mono (x y : Q) :
  x <= y -> (round_half_even x <= round_half_even y)%Z.
Proof.
  intros Hxy. destruct (Qle_lt_or_eq _ _ Hxy) as [Hlt | Heq].
  - pose proof (round_half_even_bounds x) as [Hx _].
    pose proof (round_half_even_bounds y) as [_ Hy].
    apply inject_Z_lt_succ. lra.
  - rewrite (round_half_even_proper _ _ Heq). lia.
Qed.

Lemma cents_mono (a b : Z) : (a <= b)%Z -> cents a <= cents b.
Proof. unfold cents, Qle; simpl. lia. Qed.

Lemma cents_opp (a : Z) : cents (- a) == - cents a.
Proof. unfold cents, Qeq, Qopp; simpl. lia. Qed.

Lemma cents_abs (a : Z) : a <> 0%Z -> 0.01 <= Qabs (cents a).
Proof. unfold cents, Qabs, Qle; simpl. lia. Qed.

(** [qround] gives a whole number of cents, at most half a cent from its
    argument, and leaves a whole number of cents as it is. *)
Theorem qround_whole_cents (x : Q) :
  (exists k : Z, qround x == cents k)
  /\ Qabs (x - qround x) <= 0.005
  /\ qround (qround x) == qround x.
Proof.
  destruct (qround_nearest x) as (k & Hk & Hd).
  split; [by exists k |]. split; [exact Hd |].
  rewrite (qround_eq_cents (qround x) k Hk). symmetry. exact Hk.
Qed.

(** [qround] is odd, and what it returns is zero or at least one cent in
    absolute value: no dust, and no stray sign, survives it. *)
Theorem qround_odd_no_dust (x : Q) :
  qround (- x) == - qround x
  /\ (qround x == 0 \/ 0.01 <= Qabs (qround x)).
Proof.
  split.
  - rewrite !qround_cents, <- cents_opp, <- round_half_even_opp.
    assert (round_half_even (- x * 100) = round_half_even (- (x * 100))) as ->
      by (apply round_half_even_proper; lra).
    reflexivity.
  - rewrite qround_cents.
    destruct (decide (round_half_even (x * 100) = 0%Z)) as [-> | Hne].
    + left. reflexivity.
    + right. apply cents_abs. exact Hne.
Qed.

(** [qround] is monotone. *)
Theorem qround_monotone (x y : Q) : x <= y -> qround x <= qround y.
Proof.
  intros Hxy. rewrite !qround_cents.
  apply cents_mono, round_half_even_mono. lra.
Qed.

Lemma qround_monotone_witness : 3.337 <= 3.342 /\ qround 3.337 <= qround 3.342.
Proof.
  split; [vm_compute; discriminate |].
  apply (qround_monotone 3.337 3.342). vm_compute. discriminate.
Defined.

(** * More on the split strategies *)

(** Whatever the loop is given, it keeps the number of shares, and shares
    that are whole cents stay whole cents. *)
Lemma adjust_shape (amount : Q) (n : nat) (step : Q) (fuel : nat) :
  forall (i : nat) (shares shares' : list Q) (diff : Q),
    Forall (fun q => exists k : Z, q == cents k) shares ->
    adjust fuel amount n step i shares diff = Ok shares' ->
    length shares' = length shares
    /\ Forall (fun q => exists k : Z, q == cents k) shares'.
Proof.
  induction fuel as [| fuel IH]; intros i shares shares' diff Hw Hrun.
  - rewrite adjust_O in Hrun. injection Hrun as <-. done.
  - rewrite adjust_S in Hrun. destruct (Qle_bool _ _).
    + destruct n as [| n']; [discriminate |].
      destruct (shares !! _) as [q |] eqn:Hq; [| discriminate].
      apply IH in Hrun as [Hl Hw'].
      * rewrite length_insert in Hl. done.
      * apply Forall_insert; [exact Hw |].
        exists (round_half_even ((q + step) * 100)). apply qround_cents.
    + injection Hrun as <-. done.
Qed.

(** The loop raises nothing but the two index faults. *)
Lemma adjust_error (amount : Q) (n : nat) (step : Q) (fuel : nat) :
  forall (i : nat) (shares : list Q) (diff : Q) (e : error),
    adjust fuel amount n step i shares diff = Err e ->
    e = ZeroDivisionError \/ e = IndexError.
Proof.
  induction fuel as [| fuel IH]; intros i shares diff e Hrun.
  - rewrite adjust_O in Hrun. discriminate.
  - rewrite adjust_S in Hrun. destruct (Qle_bool _ _); [| discriminate].
    destruct n as [| n']; [injection Hrun as <-; auto |].
    destruct (shares !! _) as [q |]; [| injection Hrun as <-; auto].
    eapply IH. exact Hrun.
Qed.

Lemma map_qround_whole (raws : list Q) :
  Forall (fun q => exists k : Z, q == cents k) (map qround raws).
Proof.
  apply Forall_forall. intros q Hin.
  apply list_elem_of_fmap in Hin as (r & -> & _).
  exists (round_half_even (r * 100)). apply qround_cents.
Qed.

Lemma zip_whole (users : list string) (shares : list Q) :
  Forall (fun q => exists k : Z, q == cents k) shares ->
  Forall (fun a : string * Q => exists k : Z, snd a == cents k)
    (zip users shares).
Proof.
  intros H. revert users. induction H as [| q shares Hq _ IH]; intros [| u users];
    simpl; constructor; auto.
Qed.

Lemma split_shape (s : SplitStrategy) (amount : Q)
    (ps : participants_t) (alloc : allocation_t) :
  split s amount ps = Ok alloc ->
  map fst alloc = map fst ps
  /\ Forall (fun a : string * Q => exists k : Z, snd a == cents k) alloc.
Proof.
  destruct s; simpl.
  - unfold EqualSplit_split.
    destruct (length (map fst ps)) as [| n'] eqn:En; [discriminate |].
    rewrite <- En.
    set (base := amount / inject_Z (Z.of_nat (length (map fst ps)))).
    assert (map (fun _ : string => qround base) (map fst ps)
            = map qround (map (fun _ : string => base) (map fst ps))) as ->
      by (rewrite !map_map; reflexivity).
    destruct (adjust _ _ _ _ _ _ _) as [shares' |] eqn:Hrun; [| discriminate].
    apply adjust_shape in Hrun as [Hl Hw]; [| apply map_qround_whole].
    intros [= <-]. rewrite !length_map in Hl.
    split; [apply fst_zip_users; rewrite length_map; lia | apply zip_whole, Hw].
  - unfold ExactSplit_split. destruct (Qlt_le_dec _ _); [discriminate |].
    intros [= <-]. split; [apply ExactSplit_keys |].
    apply Forall_forall. intros [name v] Hin.
    apply list_elem_of_fmap in Hin as ([name' v'] & [= -> ->] & _).
    exists (round_half_even (v' * 100)). apply qround_cents.
  - unfold ShareSplit_split. destruct (existsb _ _); [discriminate |].
    set (W := py_sum (map snd ps)).
    set (raw := map (fun '(k, w) => (k, amount * (w / W))) ps).
    assert (map (fun '(_, r) => qround r) raw = map qround (map snd raw)) as ->.
    { rewrite map_map. apply map_ext. intros [k r]. reflexivity. }
    assert (map fst raw = map fst ps) as ->.
    { unfold raw. rewrite map_map. apply map_ext. intros [k w]. reflexivity. }
    destruct (adjust _ _ _ _ _ _ _) as [shares' |] eqn:Hrun; [| discriminate].
    apply adjust_shape in Hrun as [Hl Hw]; [| apply map_qround_whole].
    intros [= <-]. unfold raw in Hl. rewrite !length_map in Hl.
    split; [apply fst_zip_users; rewrite length_map; lia | apply zip_whole, Hw].
Qed.

(** Whenever a split returns, it returns the keys of the participants
    mapping, in the same order, each with a whole number of cents. *)
Theorem split_keys_and_cents (s : SplitStrategy) (amount : Q)
    (ps : participants_t) (alloc : allocation_t) :
  split s amount ps = Ok alloc ->
  map fst alloc = map fst ps
  /\ Forall (fun a : string * Q => exists k : Z, snd a == cents k) alloc.
Proof. apply split_shape. Qed.

Lemma split_keys_and_cents_witness :
  map fst [("A", 3.34); ("B", 3.33); ("C", 3.33)] = ["A"; "B"; "C"]
  /\ Forall (fun a : string * Q => exists k : Z, snd a == cents k)
       [("A", 3.34); ("B", 3.33); ("C", 3.33)].
Proof.
  apply (split_keys_and_cents EqualSplit 10 [("A", 1); ("B", 1); ("C", 1)]).
  vm_compute. reflexivity.
Defined.

(** [ShareSplit.split] raises the non-positive-share error exactly when
    some weight is zero or negative. *)
Theorem ShareSplit_split_rejects (amount : Q) (ps : participants_t) :
  ShareSplit_split amount ps = Err SharesNotPositiveError
  <-> Exists (fun w => w <= 0) (map snd ps).
Proof.
  unfold ShareSplit_split.
  assert (existsb (fun w => Qle_bool w 0) (map snd ps) = true
          <-> Exists (fun w => w <= 0) (map snd ps)) as Hany.
  { induction (map snd ps) as [| w ws IH]; simpl.
    - split; [discriminate | intros H; inversion H].
    - rewrite orb_true_iff, IH, Exists_cons, Qle_bool_iff. reflexivity. }
  destruct (existsb _ _).
  - split; [intros _; apply Hany; reflexivity | reflexivity].
  - split; [| intros H; apply Hany in H; discriminate].
    destruct (adjust _ _ _ _ _ _ _) as [shares' |] eqn:Hrun; [discriminate |].
    apply adjust_error in Hrun as [-> | ->]; discriminate.
Qed.

(** [ShareSplit.split] on the empty mapping: an amount that rounds to zero
    gets the empty allocation, any other amount runs into [i % 0]. *)
Theorem ShareSplit_split_empty (amount : Q) :
  ShareSplit_split amount []
  = if Qeq_dec (qround amount) 0 then Ok [] else Err ZeroDivisionError.
Proof.
  unfold ShareSplit_split. cbn [map existsb length].
  set (diff := qround (amount - py_sum [])).
  assert (diff == cents (round_half_even (amount * 100))) as Hd.
  { unfold diff. rewrite qround_cents.
    assert (round_half_even ((amount - py_sum []) * 100)
            = round_half_even (amount * 100)) as ->; [| reflexivity].
    apply round_half_even_proper. unfold py_sum; simpl. lra. }
  pose proof (loop_test_cents diff _ Hd) as Ht.
  change 1000%nat with (S 999). rewrite adjust_S.
  destruct (Qeq_dec (qround amount) 0) as [Hz | Hnz].
  - rewrite qround_cents in Hz. apply cents_zero in Hz.
    destruct (Qle_bool _ _); [| reflexivity].
    exfalso. apply Ht; [reflexivity | exact Hz].
  - destruct (Qle_bool _ _); [reflexivity |].
    exfalso. apply Hnz. rewrite qround_cents.
    destruct (decide (round_half_even (amount * 100) = 0%Z)) as [-> | Hne];
      [reflexivity |].
    apply Ht in Hne. discriminate.
Qed.

(** * Where the cents go *)

Lemma cents_near (x : Q) (k s : Z) :
  (s = 1 \/ s = -1)%Z ->
  Qabs (x - cents (round_half_even (x * 100))) <= 0.005
  /\ Qabs (x - cents (round_half_even (x * 100) + s)) <= 0.015.
Proof.
  intros Hs. pose proof (round_half_even_bounds (x * 100)) as Hb.
  pose proof (cents_inject (round_half_even (x * 100))) as Hc.
  split; apply Qabs_Qle_condition.
  - lra.
  - rewrite cents_add. destruct Hs as [-> | ->]; unfold cents at 2 4; lra.
Qed.

(** In Equal mode, for a positive amount up to [max_amount], the loop
    hands the cents out going round the list: after its [J <= 1000]
    iterations, participant [j] (in insertion order) holds the base share
    moved by one step for each of the [J / n + (1 if j < J % n)] times the
    loop stopped at it.  The base share is the whole-cent rounding of
    [amount / n], half a cent from it at most (up to [EPS]: on doubles the
    rounding at half a cent may fall either way). *)
Theorem EqualSplit_split_goes_round (amount : Q) (ps : participants_t) :
  ps <> [] ->
  in_range amount ->
  exists (alloc : allocation_t) (base step : Q) (J : nat),
    let n := length ps in
    EqualSplit_split amount ps = Ok alloc
    /\ whole_cents base
    /\ Qabs (amount / inject_Z (Z.of_nat n) - base) <= 0.005 + EPS
    /\ (step == 0.01 \/ step == - 0.01)
    /\ (J <= 1000)%nat
    /\ forall (j : nat) (name : string) (q : Q),
         alloc !! j = Some (name, q) ->
         q == base + inject_Z (Z.of_nat (visits n J j)) * step.
Proof.
  intros Hne _.
  destruct (EqualSplit_split_round_robin amount ps Hne)
    as (shares & s & J & Hrun & Hs & HJ & Hl & Hshape).
  set (n := length ps) in *.
  set (x := amount / inject_Z (Z.of_nat n)) in *.
  set (k0 := round_half_even (x * 100)) in *.
  exists (zip (map fst ps) shares), (cents k0), (cents s), J. cbv zeta.
  split; [exact Hrun |].
  split; [apply qround_eq_cents; reflexivity |].
  split.
  { destruct (cents_near x 0 1) as [H _]; [auto |]. fold k0 in H.
    eapply Qle_trans; [exact H |]. vm_compute. discriminate. }
  split; [destruct Hs as [-> | ->]; [left | right]; reflexivity |].
  split; [exact HJ |].
  intros j name q Hj.
  apply lookup_zip_with_Some in Hj as (u & q' & [= <- <-] & _ & Hq).
  rewrite (Hshape j q Hq).
  unfold cents, Qeq, Qplus, Qmult, inject_Z; simpl. lia.
Qed.

Lemma EqualSplit_split_goes_round_witness :
  exists (alloc : allocation_t) (base step : Q) (J : nat),
    let n := 3%nat in
    EqualSplit_split 10 [("A", 1); ("B", 1); ("C", 1)] = Ok alloc
    /\ whole_cents base
    /\ Qabs (10 / inject_Z (Z.of_nat n) - base) <= 0.005 + EPS
    /\ (step == 0.01 \/ step == - 0.01)
    /\ (J <= 1000)%nat
    /\ forall (j : nat) (name : string) (q : Q),
         alloc !! j = Some (name, q) ->
         q == base + inject_Z (Z.of_nat (visits n J j)) * step.
Proof.
  apply (EqualSplit_split_goes_round 10 [("A", 1); ("B", 1); ("C", 1)]).
  - discriminate.
  - split; vm_compute; congruence.
Defined.

(** In Share mode, for a positive whole-cent amount and positive weights,
    all up to [max_amount], and at most 2001 participants, every
    participant's amount is less than two cents from the exact
    proportional amount [amount * weight / total]: half a cent of
    rounding and at most one step of the loop. *)
Theorem ShareSplit_split_proportional (amount : Q) (ps : participants_t) :
  ps <> [] ->
  (length ps <= 2001)%nat ->
  in_range amount ->
  whole_cents amount ->
  Forall in_range (map snd ps) ->
  exists alloc : allocation_t,
    ShareSplit_split amount ps = Ok alloc
    /\ map fst alloc = map fst ps
    /\ forall (i : nat) (name : string) (w q : Q),
         ps !! i = Some (name, w) ->
         map snd alloc !! i = Some q ->
         Qabs (amount * (w / py_sum (map snd ps)) - q) < 0.02.
Proof.
  intros Hne _ _ _ Hrange.
  assert (Forall (fun w => 0 < w) (map snd ps)) as Hpos.
  { eapply Forall_impl; [exact Hrange |]. intros w [H _]. exact H. }
  destruct (ShareSplit_split_spec amount ps Hne Hpos)
    as (shares & ks & s & m & Hrun & Hc & Hlen & Hs & Hm & Hcap & Hmove & _).
  pose proof (in_cents_length _ _ Hc) as Hl.
  exists (zip (map fst ps) shares). split; [exact Hrun |].
  rewrite fst_zip_users, snd_zip_shares by (rewrite length_map; lia).
  split; [reflexivity |].
  intros i name w q Hp Hq.
  destruct (Forall2_lookup_l _ _ _ _ _ Hc Hq) as (k & Hk & Hqk).
  rewrite Hmove, Hp in Hk. simpl in Hk. injection Hk as <-.
  rewrite Hqk.
  destruct (cents_near (amount * (w / py_sum (map snd ps))) 0 s Hs) as [H0 H1].
  destruct (decide (i < m)%nat).
  - eapply Qle_lt_trans; [exact H1 |]. reflexivity.
  - eapply Qle_lt_trans; [exact H0 |]. reflexivity.
Qed.

Lemma ShareSplit_split_proportional_witness :
  exists alloc : allocation_t,
    ShareSplit_split 100 [("a", 1); ("b", 1); ("c", 1)] = Ok alloc
    /\ map fst alloc = ["a"; "b"; "c"]
    /\ forall (i : nat) (name : string) (w q : Q),
         [("a", 1); ("b", 1); ("c", 1)] !! i = Some (name, w) ->
         map snd alloc !! i = Some q ->
         Qabs (100 * (w / py_sum [1; 1; 1]) - q) < 0.02.
Proof.
  apply (ShareSplit_split_proportional 100 [("a", 1); ("b", 1); ("c", 1)]).
  - discriminate.
  - simpl. lia.
  - split; vm_compute; congruence.
  - vm_compute. reflexivity.
  - repeat constructor; vm_compute; congruence.
Defined.

(** * The iteration cap *)

Lemma sumZ_prefix (k0 s : Z) :
  forall (ks : list Z) (m : nat),
    (forall i, (i < length ks)%nat ->
       ks !! i = Some (if decide (i < m)%nat then (k0 + s)%Z else k0)) ->
    (m <= length ks)%nat ->
    sumZ ks = (Z.of_nat (length ks) * k0 + s * Z.of_nat m)%Z.
Proof.
  induction ks as [| k ks IH]; intros m H Hm.
  - simpl in *. replace m with 0%nat by lia. simpl. lia.
  - pose proof (H 0%nat ltac:(simpl; lia)) as H0. simpl in H0.
    injection H0 as ->.
    assert (sumZ ks
            = (Z.of_nat (length ks) * k0 + s * Z.of_nat (Nat.pred m))%Z) as Ht.
    { apply IH; [| simpl in Hm; lia].
      intros i Hi. specialize (H (S i) ltac:(simpl; lia)). simpl in H.
      rewrite H. f_equal.
      destruct (decide (S i < m)%nat), (decide (i < Nat.pred m)%nat);
        try reflexivity; lia. }
    cbn [sumZ foldr length]. fold (sumZ ks). rewrite Ht.
    destruct (decide (0 < m)%nat).
    + replace m with (S (Nat.pred m)) at 2 by lia. lia.
    + replace m with 0%nat by lia. simpl. lia.
Qed.

(** When rounding the base share leaves more than 10.005 to hand out, the
    loop stops at its cap of 1000 iterations and the returned amounts do
    not add up to the amount. *)
Theorem EqualSplit_split_cap (amount : Q) (ps : participants_t) :
  ps <> [] ->
  10.005 < Qabs (amount
                 - inject_Z (Z.of_nat (length ps))
                   * qround (amount / inject_Z (Z.of_nat (length ps)))) ->
  exists alloc : allocation_t,
    EqualSplit_split amount ps = Ok alloc
    /\ ~ qround (amount - py_sum (map snd alloc)) == 0.
Proof.
  intros Hne Hbig.
  destruct (EqualSplit_split_spec amount ps Hne)
    as (shares & ks & s & m & Hrun & Hc & Hlen & Hs & Hm & Hcap & Hmove & _).
  pose proof (in_cents_length _ _ Hc) as Hl.
  exists (zip (map fst ps) shares). split; [exact Hrun |].
  rewrite snd_zip_shares by (rewrite length_map; lia).
  rewrite (diff_cents _ _ _ Hc). intros Hz. apply cents_zero in Hz.
  apply round_half_even_zero in Hz. unfold remainder in Hz.
  cbv zeta in Hmove. rewrite <- Hlen in Hmove.
  rewrite (sumZ_prefix _ s ks m Hmove) in Hz by lia.
  rewrite Hlen in Hz. rewrite qround_cents in Hbig.
  set (k0 := round_half_even
               (amount / inject_Z (Z.of_nat (length ps)) * 100)) in *.
  pose proof (cents_inject k0) as Hk0.
  rewrite inject_Z_plus, !inject_Z_mult in Hz.
  assert (0 <= inject_Z (Z.of_nat m) <= 1000) as Hmq.
  { split; [apply inject_nat_nonneg |].
    change 1000 with (inject_Z 1000). rewrite <- Zle_Qle. lia. }
  set (N := inject_Z (Z.of_nat (length ps))) in *.
  assert (N * cents k0 * 100 == N * inject_Z k0) as HN by (rewrite <- Hk0; ring).
  apply Qlt_not_le in Hbig. apply Hbig. apply Qabs_Qle_condition.
  destruct Hs as [-> | ->].
  - change (inject_Z 1) with 1 in Hz. lra.
  - change (inject_Z (-1)) with (-1 # 1) in Hz. lra.
Qed.

Lemma EqualSplit_split_cap_witness :
  exists alloc : allocation_t,
    EqualSplit_split 12 crowd = Ok alloc
    /\ ~ qround (12 - py_sum (map snd alloc)) == 0.
Proof.
  apply (EqualSplit_split_cap 12 crowd).
  - intros H. apply (f_equal length) in H. vm_compute in H. discriminate.
  - vm_compute. reflexivity.
Defined.

(** * More on the ledger *)

Lemma apply_settlement_cells (st : Settlement.t) (l : Ledger.t) :
  Ledger.entry (Ledger.apply_settlement st l)
    (Settlement.payer st) (Settlement.payee st)
  = Some (default 0 (Ledger.entry l (Settlement.payer st) (Settlement.payee st))
          - Settlement.amount st)
  /\ forall a b : string,
       (a, b) <> (Settlement.payer st, Settlement.payee st) ->
       Ledger.entry (Ledger.apply_settlement st l) a b = Ledger.entry l a b.
Proof.
  unfold Ledger.apply_settlement. split.
  - apply entry_update_eq.
  - intros a b Hne. apply entry_update_ne. exact Hne.
Qed.

(** [apply_settlement] takes the amount off [balance[payer][payee]], a
    missing cell counting as zero, and changes no other cell. *)
Theorem apply_settlement_correct (st : Settlement.t) (l : Ledger.t) :
  Ledger.entry (Ledger.apply_settlement st l)
    (Settlement.payer st) (Settlement.payee st)
  = Some (default 0 (Ledger.entry l (Settlement.payer st) (Settlement.payee st))
          - Settlement.amount st)
  /\ forall a b : string,
       (a, b) <> (Settlement.payer st, Settlement.payee st) ->
       Ledger.entry (Ledger.apply_settlement st l) a b = Ledger.entry l a b.
Proof. apply apply_settlement_cells. Qed.

Lemma apply_expense_no_self_balance (exp : Expense.t) (l l' : Ledger.t) :
  no_self_balance l -> Ledger.apply_expense exp l = Ok l' -> no_self_balance l'.
Proof.
  intros Hl. unfold Ledger.apply_expense.
  destruct (Expense.allocations exp) as [alloc |]; [| discriminate].
  intros [= <-] a. rewrite entry_fold_owe_other; [apply Hl |].
  intros (-> & Hne & _). apply Hne. reflexivity.
Qed.

Lemma apply_settlement_no_self_balance (st : Settlement.t) (l : Ledger.t) :
  Settlement.payer st <> Settlement.payee st ->
  no_self_balance l -> no_self_balance (Ledger.apply_settlement st l).
Proof.
  intros Hne Hl a. unfold Ledger.apply_settlement.
  rewrite entry_update_ne; [apply Hl |]. intros [= -> ?]. apply Hne. done.
Qed.

(** A property of the ledger that every timeline entry keeps still holds
    of the ledger that [apply_timeline] leaves, whether or not an entry
    raised. *)
Lemma apply_timeline_invariant (P : Ledger.t -> Prop) (timeline : list entry_t) :
  forall l : Ledger.t,
    P l ->
    Forall (fun t => forall l1 l2 : Ledger.t,
              P l1 -> ExpenseManager.apply_entry t l1 = Ok l2 -> P l2) timeline ->
    P (snd (ExpenseManager.apply_timeline timeline l)).
Proof.
  induction timeline as [| t timeline IH]; intros l Hl Hall; simpl.
  - exact Hl.
  - apply Forall_cons in Hall as [Ht Hall].
    destruct (ExpenseManager.apply_entry t l) as [l' |] eqn:E; simpl.
    + apply IH; [eapply Ht; [exact Hl | exact E] | exact Hall].
    + exact Hl.
Qed.

Lemma rebuild_ledger_ledger (self : ExpenseManager.t) (exps : list Expense.t) :
  mapM ExpenseManager._deserialize_expense
    (CacheService.list_expenses (ExpenseManager.cache self)) = Ok exps ->
  ExpenseManager.ledger (snd (ExpenseManager.rebuild_ledger self))
  = snd (ExpenseManager.apply_timeline
           (sort_by_key
              (ExpenseManager.timeline_of exps
                 (map ExpenseManager._deserialize_settlement
                    (CacheService.list_settlements (ExpenseManager.cache self)))))
           Ledger.new)
  /\ fst (ExpenseManager.rebuild_ledger self)
     = fst (ExpenseManager.apply_timeline
              (sort_by_key
                 (ExpenseManager.timeline_of exps
                    (map ExpenseManager._deserialize_settlement
                       (CacheService.list_settlements
                          (ExpenseManager.cache self)))))
              Ledger.new).
Proof.
  intros H. unfold ExpenseManager.rebuild_ledger.
  cbn [ExpenseManager.cache ExpenseManager.ledger]. rewrite H.
  destruct (ExpenseManager.apply_timeline _ _). split; reflexivity.
Qed.

(** Built from settlements whose payer and payee differ, the ledger that
    [rebuild_ledger] leaves, on success and on failure alike, holds no
    balance of an identity against itself. *)
Theorem rebuild_ledger_no_self_balance (self : ExpenseManager.t) :
  Forall (fun d => SettlementData.payer d <> SettlementData.payee d)
    (CacheService.list_settlements (ExpenseManager.cache self)) ->
  no_self_balance (ExpenseManager.ledger (snd (ExpenseManager.rebuild_ledger self))).
Proof.
  intros Hsets.
  destruct (mapM ExpenseManager._deserialize_expense
              (CacheService.list_expenses (ExpenseManager.cache self)))
    as [exps | e] eqn:Hexps.
  - rewrite (proj1 (rebuild_ledger_ledger self exps Hexps)).
    apply apply_timeline_invariant.
    + intros a. reflexivity.
    + eapply Permutation_Forall; [apply sort_by_key_perm |].
      unfold ExpenseManager.timeline_of. apply Forall_app. split.
      * apply Forall_forall. intros t Ht.
        apply list_elem_of_fmap in Ht as (ex & -> & _).
        intros l1 l2 Hl1. apply apply_expense_no_self_balance. exact Hl1.
      * apply Forall_forall. intros t Ht.
        apply list_elem_of_fmap in Ht as (st & -> & Hst).
        apply list_elem_of_fmap in Hst as (d & -> & Hd).
        rewrite Forall_forall in Hsets. specialize (Hsets d Hd).
        intros l1 l2 Hl1 [= <-].
        apply apply_settlement_no_self_balance; [exact Hsets | exact Hl1].
  - unfold ExpenseManager.rebuild_ledger.
    cbn [ExpenseManager.cache ExpenseManager.ledger]. rewrite Hexps.
    intros a. reflexivity.
Qed.

Lemma rebuild_ledger_no_self_balance_witness :
  no_self_balance
    (ExpenseManager.ledger (snd (ExpenseManager.rebuild_ledger demo_manager))).
Proof.
  apply (rebuild_ledger_no_self_balance demo_manager).
  repeat constructor. discriminate.
Defined.

Lemma not_significant_zero (x : Q) : x == 0 -> Ledger.significant x = false.
Proof.
  intros H. unfold Ledger.significant.
  destruct (Qlt_le_dec _ _) as [Hlt | _]; [| reflexivity].
  rewrite H in Hlt. vm_compute in Hlt. discriminate.
Qed.

(** Settlement zeroing: when the payer pays exactly what the ledger says it
    owes the payee, and the payee owes nothing back, each of the two
    leaves the other's net view. *)
Theorem settle_in_full (st : Settlement.t) (l : Ledger.t) :
  Settlement.payer st <> Settlement.payee st ->
  Settlement.amount st
  == default 0 (Ledger.entry l (Settlement.payer st) (Settlement.payee st)) ->
  kept (Ledger.entry l (Settlement.payee st) (Settlement.payer st)) = None ->
  Ledger.net_for (Ledger.apply_settlement st l) (Settlement.payer st)
    !! Settlement.payee st = None
  /\ Ledger.net_for (Ledger.apply_settlement st l) (Settlement.payee st)
       !! Settlement.payer st = None.
Proof.
  intros Hne Hpaid Hback.
  destruct (apply_settlement_cells st l) as [Hcell Hother].
  rewrite !lookup_net_for. unfold net_entry.
  rewrite Hcell, (Hother (Settlement.payee st) (Settlement.payer st))
    by (intros [= ? ?]; congruence).
  rewrite Hback.
  assert (kept (Some (default 0 (Ledger.entry l (Settlement.payer st)
                                   (Settlement.payee st))
                      - Settlement.amount st)) = None) as ->.
  { unfold kept; simpl. rewrite not_significant_zero; [reflexivity | lra]. }
  rewrite !decide_False by congruence. split; reflexivity.
Qed.

Lemma settle_in_full_witness :
  Ledger.net_for
    (Ledger.apply_settlement (Settlement.mk "s2" "sam" "you" 30 "" 9 "")
       after_dinner) "sam" !! "you" = None
  /\ Ledger.net_for
       (Ledger.apply_settlement (Settlement.mk "s2" "sam" "you" 30 "" 9 "")
          after_dinner) "you" !! "sam" = None.
Proof.
  apply (settle_in_full (Settlement.mk "s2" "sam" "you" 30 "" 9 "") after_dinner).
  - discriminate.
  - vm_compute. reflexivity.
  - vm_compute. reflexivity.
Defined.

(** * The net view after one expense *)

Lemma round2_whole (x : Q) (k : Z) : x == cents k -> round2 x == x.
Proof.
  intros H. rewrite round2_cents.
  assert (round_half_even (x * 100) = k) as ->; [| symmetry; exact H].
  rewrite <- (round_half_even_inject k). apply round_half_even_proper.
  rewrite H. apply cents_inject.
Qed.

Lemma significant_whole (x : Q) (k : Z) :
  x == cents k -> Ledger.significant x = negb (Z.eqb k 0).
Proof.
  intros H. unfold Ledger.significant.
  destruct (Qlt_le_dec _ _) as [Hlt | Hle]; rewrite H in *.
  - destruct (Z.eqb_spec k 0) as [-> | Hne]; [| reflexivity].
    vm_compute in Hlt. discriminate.
  - destruct (Z.eqb_spec k 0) as [-> | Hne]; [reflexivity |].
    pose proof (cents_abs k Hne). exfalso. apply (Qle_not_lt _ _ Hle).
    eapply Qlt_le_trans; [| eassumption]. vm_compute. reflexivity.
Qed.

(** After one expense on an empty ledger, a participant other than the
    payer sees the payer in its net view with exactly its allocated
    amount, and the payer sees the participant with the opposite amount;
    a participant who was allocated nothing appears in neither view. *)
Theorem first_expense_view (exp : Expense.t) (alloc : allocation_t)
    (user : string) (owed : Q) :
  Expense.allocations exp = Ok alloc ->
  NoDup (map fst alloc) ->
  (user, owed) ∈ alloc ->
  user <> Expense.payer exp ->
  exists l : Ledger.t,
    Ledger.apply_expense exp Ledger.new = Ok l
    /\ match Ledger.net_for l user !! Expense.payer exp,
             Ledger.net_for l (Expense.payer exp) !! user with
       | Some v, Some w => ~ owed == 0 /\ v == owed /\ w == - owed
       | None, None => owed == 0
       | _, _ => False
       end.
Proof.
  intros Halloc Hnd Hin Hne.
  exists (fold_left (Ledger.owe (Expense.payer exp)) alloc Ledger.new).
  split; [unfold Ledger.apply_expense; rewrite Halloc; reflexivity |].
  pose proof (entry_fold_owe_participant (Expense.payer exp) alloc Ledger.new)
    as Hcell.
  pose proof (entry_fold_owe_other (Expense.payer exp) alloc Ledger.new)
    as Hother.
  destruct (split_shape _ _ _ _ Halloc) as [_ Hwhole].
  rewrite Forall_forall in Hwhole. destruct (Hwhole _ Hin) as [k Hk].
  simpl in Hk.
  rewrite !lookup_net_for. unfold net_entry.
  rewrite (Hcell user owed Hnd Hin Hne).
  rewrite (Hother (Expense.payer exp) user) by tauto.
  rewrite !decide_False by congruence.
  change (Ledger.entry Ledger.new (Expense.payer exp) user) with (@None Q).
  change (Ledger.entry Ledger.new user (Expense.payer exp)) with (@None Q).
  assert (0 + owed == cents k) as Hk' by (rewrite <- Hk; lra).
  unfold kept; simpl. rewrite (significant_whole _ k Hk').
  destruct (Z.eqb_spec k 0) as [-> | Hk0]; simpl.
  - rewrite Hk. reflexivity.
  - split; [| split].
    + intros Hz. rewrite Hk in Hz. apply cents_zero in Hz. done.
    + rewrite (round2_whole _ k Hk'). lra.
    + rewrite (round2_whole _ (- k)); [lra |].
      rewrite cents_opp, <- Hk'. lra.
Qed.

Lemma first_expense_view_witness :
  exists l : Ledger.t,
    Ledger.apply_expense dinner Ledger.new = Ok l
    /\ match Ledger.net_for l "sam" !! "you", Ledger.net_for l "you" !! "sam" with
       | Some v, Some w => ~ 30.00 == 0 /\ v == 30.00 /\ w == - 30.00
       | None, None => 30.00 == 0
       | _, _ => False
       end.
Proof.
  apply (first_expense_view dinner
           [("you", 30.00); ("sam", 30.00); ("lee", 30.00)] "sam" 30.00).
  - vm_compute. reflexivity.
  - apply (bool_decide_unpack _). vm_compute. exact I.
  - apply list_elem_of_further, list_elem_of_here.
  - discriminate.
Defined.

(** * More on the manager *)

(** Serialising and reading back gives the same expense and the same
    settlement: the strategy survives as its class name. *)
Theorem serialize_round_trip (exp : Expense.t) (st : Settlement.t) :
  ExpenseManager._deserialize_expense (ExpenseManager._serialize_expense exp)
  = Ok exp
  /\ ExpenseManager._deserialize_settlement
       (ExpenseManager._serialize_settlement st) = st.
Proof.
  split.
  - destruct exp as [i d a p ps s n dt g]. destruct s; reflexivity.
  - destruct st. reflexivity.
Qed.

Lemma deserialize_serialize_expense (exp : Expense.t) :
  ExpenseManager._deserialize_expense (ExpenseManager._serialize_expense exp)
  = Ok exp.
Proof. destruct exp as [i d a p ps s n dt g]. destruct s; reflexivity. Qed.

Lemma deserialize_serialize_settlement (st : Settlement.t) :
  ExpenseManager._deserialize_settlement
    (ExpenseManager._serialize_settlement st) = st.
Proof. destruct st. reflexivity. Qed.

(** The list comprehension over the expense records. *)
Lemma mapM_deserialize_Ok (records : list ExpenseData.t) (exps : list Expense.t) :
  mapM ExpenseManager._deserialize_expense records = Ok exps
  <-> Forall2 (fun d e => ExpenseManager._deserialize_expense d = Ok e)
        records exps.
Proof.
  revert exps. induction records as [| r records IH]; intros exps.
  - split.
    + intros [= <-]. constructor.
    + intros H. inversion H. reflexivity.
  - rewrite mapM_deserialize_cons. split.
    + destruct (ExpenseManager._deserialize_expense r) as [e |] eqn:E;
        [| discriminate].
      cbn [mbind result_bind].
      destruct (mapM ExpenseManager._deserialize_expense records) as [es |] eqn:Es;
        [| discriminate].
      intros [= <-]. constructor; [exact E |]. apply IH. reflexivity.
    + intros H. inversion H as [| ? e ? es He Hes]; subst.
      rewrite He. cbn [mbind result_bind].
      apply IH in Hes. rewrite Hes. reflexivity.
Qed.

Lemma mapM_deserialize_app (records : list ExpenseData.t)
    (exps : list Expense.t) (exp : Expense.t) :
  mapM ExpenseManager._deserialize_expense records = Ok exps ->
  mapM ExpenseManager._deserialize_expense
    (records ++ [ExpenseManager._serialize_expense exp]) = Ok (exps ++ [exp]).
Proof.
  intros H. apply mapM_deserialize_Ok. apply mapM_deserialize_Ok in H.
  apply Forall2_app; [exact H |].
  constructor; [apply deserialize_serialize_expense | constructor].
Qed.

Lemma _deserialize_expense_date (d : ExpenseData.t) (e : Expense.t) :
  ExpenseManager._deserialize_expense d = Ok e ->
  Expense.date e = ExpenseData.date d
  /\ ExpenseManager._strategy_map (ExpenseData.split_strategy d)
     = Some (Expense.split_strategy e)
  /\ Expense.amount e = ExpenseData.amount d
  /\ Expense.participants e = ExpenseData.participants d.
Proof.
  unfold ExpenseManager._deserialize_expense.
  destruct (ExpenseManager._strategy_map _); [| discriminate].
  intros [= <-]. repeat split.
Qed.

(** ** The sort, when the new entry is the latest *)

Lemma insert_by_key_snoc (t u : entry_t) (l : list entry_t) :
  (fst t <= fst u)%Z ->
  insert_by_key t (l ++ [u]) = insert_by_key t l ++ [u].
Proof.
  intros Htu. induction l as [| v l IH]; simpl.
  - apply Z.leb_le in Htu. rewrite Htu. reflexivity.
  - destruct (fst t <=? fst v)%Z; [reflexivity |]. rewrite IH. reflexivity.
Qed.

Lemma insert_by_key_latest (t : entry_t) (l : list entry_t) :
  Forall (fun u => (fst u < fst t)%Z) l -> insert_by_key t l = l ++ [t].
Proof.
  induction 1 as [| u l Hu _ IH]; simpl; [reflexivity |].
  apply Z.leb_gt in Hu. rewrite Hu, IH. reflexivity.
Qed.

(** An entry that no earlier-listed entry is later than, and every
    later-listed entry is strictly earlier than, is sorted to the end. *)
Lemma sort_by_key_latest (l1 l2 : list entry_t) (t : entry_t) :
  Forall (fun u => (fst u <= fst t)%Z) l1 ->
  Forall (fun u => (fst u < fst t)%Z) l2 ->
  sort_by_key (l1 ++ t :: l2) = sort_by_key (l1 ++ l2) ++ [t].
Proof.
  intros H1 H2. induction H1 as [| v l1 Hv _ IH]; simpl.
  - apply insert_by_key_latest.
    eapply Permutation_Forall; [apply sort_by_key_perm | exact H2].
  - rewrite IH. apply insert_by_key_snoc. exact Hv.
Qed.

Lemma apply_timeline_app (tl tl' : list entry_t) (l : Ledger.t) :
  ExpenseManager.apply_timeline (tl ++ tl') l
  = match ExpenseManager.apply_timeline tl l with
    | (Ok _, l1) => ExpenseManager.apply_timeline tl' l1
    | (Err e, l1) => (Err e, l1)
    end.
Proof.
  revert l. induction tl as [| t tl IH]; intros l; simpl.
  - reflexivity.
  - destruct (ExpenseManager.apply_entry t l); [apply IH | reflexivity].
Qed.

(** What a manager in step with its cache knows about that cache. *)
Lemma rebuild_ledger_in_step (self : ExpenseManager.t) :
  ExpenseManager.rebuild_ledger self = (Ok tt, self) ->
  exists exps : list Expense.t,
    mapM ExpenseManager._deserialize_expense
      (CacheService.expenses (ExpenseManager.cache self)) = Ok exps
    /\ ExpenseManager.apply_timeline
         (sort_by_key
            (ExpenseManager.timeline_of exps
               (map ExpenseManager._deserialize_settlement
                  (CacheService.settlements (ExpenseManager.cache self)))))
         Ledger.new
       = (Ok tt, ExpenseManager.ledger self).
Proof.
  unfold ExpenseManager.rebuild_ledger.
  cbn [ExpenseManager.cache ExpenseManager.ledger
       CacheService.list_expenses CacheService.list_settlements].
  destruct (mapM _ _) as [exps |]; [| discriminate].
  destruct (ExpenseManager.apply_timeline _ _) as [r l] eqn:E.
  intros [= -> <-]. exists exps. split; [reflexivity |]. exact E.
Qed.

Lemma expense_dates (records : list ExpenseData.t) (exps : list Expense.t)
    (P : Z -> Prop) :
  mapM ExpenseManager._deserialize_expense records = Ok exps ->
  Forall (fun d => P (ExpenseData.date d)) records ->
  Forall (fun t : entry_t => P (fst t))
    (map (fun e => (Expense.date e, expense e)) exps).
Proof.
  intros H. apply mapM_deserialize_Ok in H.
  induction H as [| d e records exps He _ IH]; intros Hall; simpl.
  - constructor.
  - apply Forall_cons in Hall as [Hd Hall]. constructor; [| apply IH, Hall].
    simpl. destruct (_deserialize_expense_date d e He) as [-> _]. exact Hd.
Qed.

Lemma settlement_dates (records : list SettlementData.t) (P : Z -> Prop) :
  Forall (fun d => P (SettlementData.date d)) records ->
  Forall (fun t : entry_t => P (fst t))
    (map (fun s => (Settlement.date s, settlement s))
       (map ExpenseManager._deserialize_settlement records)).
Proof.
  induction 1 as [| d records Hd _ IH]; simpl; constructor; auto.
Qed.

(** On a manager in step with its cache, adding a settlement dated no
    earlier than any persisted record changes the ledger exactly as
    [apply_settlement] does on the ledger at hand. *)
Theorem add_settlement_incremental (st : Settlement.t) (self : ExpenseManager.t) :
  ExpenseManager.rebuild_ledger self = (Ok tt, self) ->
  Forall (fun d => (ExpenseData.date d <= Settlement.date st)%Z)
    (CacheService.expenses (ExpenseManager.cache self)) ->
  Forall (fun d => (SettlementData.date d <= Settlement.date st)%Z)
    (CacheService.settlements (ExpenseManager.cache self)) ->
  ExpenseManager.add_settlement st self
  = (Ok tt,
     ExpenseManager.mk
       (CacheService.add_settlement
          (ExpenseManager._serialize_settlement st) (ExpenseManager.cache self))
       (Ledger.apply_settlement st (ExpenseManager.ledger self))).
Proof.
  intros Hstep Hexp Hset.
  destruct (rebuild_ledger_in_step self Hstep) as (exps & Hexps & Hrun).
  unfold ExpenseManager.add_settlement, ExpenseManager.rebuild_ledger.
  cbn [ExpenseManager.cache ExpenseManager.ledger CacheService.add_settlement
       CacheService.list_expenses CacheService.list_settlements
       CacheService.expenses CacheService.settlements].
  rewrite Hexps, map_app. cbn [map]. rewrite deserialize_serialize_settlement.
  unfold ExpenseManager.timeline_of. rewrite map_app, app_assoc. cbn [map].
  rewrite (sort_by_key_latest _ [] (Settlement.date st, settlement st)).
  - rewrite app_nil_r, apply_timeline_app.
    unfold ExpenseManager.timeline_of in Hrun. rewrite Hrun. reflexivity.
  - apply Forall_app. split.
    + apply (expense_dates _ _ (fun z => (z <= Settlement.date st)%Z) Hexps Hexp).
    + apply (settlement_dates _ (fun z => (z <= Settlement.date st)%Z) Hset).
  - constructor.
Qed.

(** On a manager in step with its cache, adding an expense dated no
    earlier than any persisted expense and later than every persisted
    settlement changes the ledger exactly as [apply_expense] does on the
    ledger at hand; when its split raises, the record has been persisted
    all the same and the ledger is the one at hand. *)
Theorem add_expense_incremental (exp : Expense.t) (self : ExpenseManager.t) :
  ExpenseManager.rebuild_ledger self = (Ok tt, self) ->
  Forall (fun d => (ExpenseData.date d <= Expense.date exp)%Z)
    (CacheService.expenses (ExpenseManager.cache self)) ->
  Forall (fun d => (SettlementData.date d < Expense.date exp)%Z)
    (CacheService.settlements (ExpenseManager.cache self)) ->
  ExpenseManager.add_expense exp self
  = let cache' :=
      CacheService.add_expense
        (ExpenseManager._serialize_expense exp) (ExpenseManager.cache self) in
    match Ledger.apply_expense exp (ExpenseManager.ledger self) with
    | Ok l' => (Ok tt, ExpenseManager.mk cache' l')
    | Err e => (Err e, ExpenseManager.mk cache' (ExpenseManager.ledger self))
    end.
Proof.
  intros Hstep Hexp Hset.
  destruct (rebuild_ledger_in_step self Hstep) as (exps & Hexps & Hrun).
  unfold ExpenseManager.add_expense, ExpenseManager.rebuild_ledger.
  cbn [ExpenseManager.cache ExpenseManager.ledger CacheService.add_expense
       CacheService.list_expenses CacheService.list_settlements
       CacheService.expenses CacheService.settlements].
  rewrite (mapM_deserialize_app _ _ exp Hexps).
  unfold ExpenseManager.timeline_of. rewrite map_app, <- app_assoc. cbn [map app].
  rewrite (sort_by_key_latest _ _ (Expense.date exp, expense exp)).
  - rewrite apply_timeline_app.
    unfold ExpenseManager.timeline_of in Hrun. rewrite Hrun.
    cbn [ExpenseManager.apply_timeline ExpenseManager.apply_entry snd].
    destruct (Ledger.apply_expense exp (ExpenseManager.ledger self)); reflexivity.
  - apply (expense_dates _ _ (fun z => (z <= Expense.date exp)%Z) Hexps Hexp).
  - apply (settlement_dates _ (fun z => (z < Expense.date exp)%Z) Hset).
Qed.

Lemma add_settlement_incremental_witness :
  ExpenseManager.add_settlement payback_late rebuilt_manager
  = (Ok tt,
     ExpenseManager.mk
       (CacheService.add_settlement
          (ExpenseManager._serialize_settlement payback_late)
          (ExpenseManager.cache rebuilt_manager))
       (Ledger.apply_settlement payback_late
          (ExpenseManager.ledger rebuilt_manager))).
Proof.
  apply (add_settlement_incremental payback_late rebuilt_manager).
  - vm_compute. reflexivity.
  - repeat constructor; try (vm_compute; discriminate).
  - repeat constructor; try (vm_compute; discriminate).
Defined.

Lemma add_expense_incremental_witness :
  ExpenseManager.add_expense taxi rebuilt_manager
  = let cache' :=
      CacheService.add_expense
        (ExpenseManager._serialize_expense taxi)
        (ExpenseManager.cache rebuilt_manager) in
    match Ledger.apply_expense taxi (ExpenseManager.ledger rebuilt_manager) with
    | Ok l' => (Ok tt, ExpenseManager.mk cache' l')
    | Err e =>
        (Err e, ExpenseManager.mk cache' (ExpenseManager.ledger rebuilt_manager))
    end.
Proof.
  apply (add_expense_incremental taxi rebuilt_manager).
  - vm_compute. reflexivity.
  - repeat constructor; try (vm_compute; discriminate).
  - repeat constructor; try (vm_compute; reflexivity).
Defined.

(** ** When a rebuild succeeds *)

Lemma apply_timeline_Ok (timeline : list entry_t) :
  forall l : Ledger.t,
    fst (ExpenseManager.apply_timeline timeline l) = Ok tt
    <-> Forall applicable timeline.
Proof.
  induction timeline as [| t timeline IH]; intros l; simpl.
  - split; [constructor | reflexivity].
  - rewrite Forall_cons. unfold ExpenseManager.apply_entry, applicable at 1.
    destruct (snd t) as [e | s].
    + unfold Ledger.apply_expense.
      destruct (Expense.allocations e) as [alloc | err]; cbn [mbind result_bind].
      * rewrite IH. split; [intros H; split; [by eexists | exact H] | tauto].
      * simpl. split; [discriminate | intros [[alloc [=]] _]].
    + rewrite IH. tauto.
Qed.

Lemma deserialized_applicable (d : ExpenseData.t) (e : Expense.t) :
  ExpenseManager._deserialize_expense d = Ok e ->
  (exists alloc : allocation_t, Expense.allocations e = Ok alloc)
  <-> allocatable d.
Proof.
  intros He.
  destruct (_deserialize_expense_date d e He) as (_ & Htag & Ha & Hp).
  unfold allocatable, Expense.allocations. rewrite Ha, Hp, Htag. split.
  - intros [alloc H]. eauto.
  - intros (cls & alloc & [= <-] & H). eauto.
Qed.

Lemma allocatable_deserializes (records : list ExpenseData.t) :
  Forall allocatable records ->
  exists exps : list Expense.t,
    mapM ExpenseManager._deserialize_expense records = Ok exps.
Proof.
  induction 1 as [| d records (cls & alloc & Htag & _) _ [exps IH]].
  - exists []. reflexivity.
  - destruct (_deserialize_expense_known d cls Htag) as (e & He & _).
    exists (e :: exps). rewrite mapM_deserialize_cons, He.
    cbn [mbind result_bind]. rewrite IH. reflexivity.
Qed.

Lemma timeline_applicable (records : list ExpenseData.t)
    (exps : list Expense.t) (sets : list Settlement.t) :
  mapM ExpenseManager._deserialize_expense records = Ok exps ->
  Forall applicable (ExpenseManager.timeline_of exps sets)
  <-> Forall allocatable records.
Proof.
  intros H. apply mapM_deserialize_Ok in H.
  unfold ExpenseManager.timeline_of. rewrite Forall_app.
  assert (Forall applicable
            (map (fun s => (Settlement.date s, settlement s)) sets)) as Hs.
  { apply Forall_forall. intros t Ht.
    apply list_elem_of_fmap in Ht as (s & -> & _). exact I. }
  assert (Forall applicable (map (fun e => (Expense.date e, expense e)) exps)
          <-> Forall allocatable records) as He.
  { induction H as [| d e records exps Hde _ IH]; simpl.
    - split; constructor.
    - rewrite !Forall_cons, IH. unfold applicable at 1. simpl.
      rewrite (deserialized_applicable d e Hde). reflexivity. }
  tauto.
Qed.

(** On records of the persisted shape, the rebuild is decided by the
    expense records alone. *)
Lemma rebuild_ledger_Ok_iff (self : ExpenseManager.t) :
  fst (ExpenseManager.rebuild_ledger self) = Ok tt
  <-> Forall allocatable
        (CacheService.list_expenses (ExpenseManager.cache self)).
Proof.
  destruct (mapM ExpenseManager._deserialize_expense
              (CacheService.list_expenses (ExpenseManager.cache self)))
    as [exps | e] eqn:Hexps.
  - rewrite (proj2 (rebuild_ledger_ledger self exps Hexps)), apply_timeline_Ok.
    rewrite <- (timeline_applicable _ exps
                  (map ExpenseManager._deserialize_settlement
                     (CacheService.list_settlements (ExpenseManager.cache self)))
                  Hexps).
    split; apply Permutation_Forall;
      [symmetry |]; apply sort_by_key_perm.
  - split.
    + unfold ExpenseManager.rebuild_ledger.
      cbn [ExpenseManager.cache ExpenseManager.ledger]. rewrite Hexps.
      discriminate.
    + intros H. apply allocatable_deserializes in H as [exps H].
      rewrite H in Hexps. discriminate.
Qed.

(** When [rebuild_ledger] returns normally, every expense record names a
    known strategy and that strategy's split returned on the record's
    amount and participants: one record that is not so makes the rebuild
    raise. *)
Theorem rebuild_ledger_succeeds (self : ExpenseManager.t) :
  fst (ExpenseManager.rebuild_ledger self) = Ok tt ->
  Forall allocatable
    (CacheService.list_expenses (ExpenseManager.cache self)).
Proof. apply rebuild_ledger_Ok_iff. Qed.

Lemma rebuild_ledger_succeeds_witness :
  Forall allocatable
    (CacheService.list_expenses (ExpenseManager.cache demo_manager)).
Proof.
  apply (rebuild_ledger_succeeds demo_manager). vm_compute. reflexivity.
Defined.

(** ** The dashboard totals *)

Lemma values_whole (m : gmap string Q) (x : Q) :
  x ∈ ExpenseManager.values (round2 <$> m) -> exists k : Z, x == cents k.
Proof.
  unfold ExpenseManager.values. intros Hx.
  apply list_elem_of_fmap in Hx as ([key v] & -> & Hkv).
  apply elem_of_map_to_list in Hkv. rewrite lookup_fmap in Hkv.
  destruct (m !! key) as [y |]; [| discriminate]. injection Hkv as <-.
  exists (round_half_even (y * 100)). simpl. rewrite round2_cents. reflexivity.
Qed.

Lemma cents_sign (x : Q) (k : Z) :
  x == cents k ->
  ExpenseManager.is_positive x = (0 <? k)%Z
  /\ ExpenseManager.is_negative x = (k <? 0)%Z.
Proof.
  intros H. unfold ExpenseManager.is_positive, ExpenseManager.is_negative.
  split.
  - destruct (Qlt_le_dec 0 x) as [Hx | Hx]; rewrite H in Hx;
      unfold cents, Qlt, Qle in Hx; simpl in Hx; symmetry;
      [apply Z.ltb_lt | apply Z.ltb_ge]; lia.
  - destruct (Qlt_le_dec x 0) as [Hx | Hx]; rewrite H in Hx;
      unfold cents, Qlt, Qle in Hx; simpl in Hx; symmetry;
      [apply Z.ltb_lt | apply Z.ltb_ge]; lia.
Qed.

(** The positive and the negative whole-cent values of a list, summed
    apart, add up to the sum of the list. *)
Lemma signed_sums (vs : list Q) :
  Forall (fun x => exists k : Z, x == cents k) vs ->
  exists kp kn : Z,
    (0 <= kp)%Z /\ (kn <= 0)%Z
    /\ py_sum (List.filter ExpenseManager.is_positive vs) == cents kp
    /\ py_sum (List.filter ExpenseManager.is_negative vs) == cents kn
    /\ py_sum vs == cents (kp + kn).
Proof.
  induction 1 as [| x vs [k Hk] _ (kp & kn & Hp & Hn & Hsp & Hsn & Hs)].
  - exists 0%Z, 0%Z. repeat split; try lia; reflexivity.
  - destruct (cents_sign x k Hk) as [Hpos Hneg]. cbn [List.filter].
    rewrite Hpos, Hneg.
    assert (py_sum (x :: vs) == cents (k + (kp + kn))) as Hall
      by (rewrite py_sum_cons, Hs, Hk, <- cents_add; reflexivity).
    destruct (Z.ltb_spec 0 k), (Z.ltb_spec k 0); try lia.
    + exists (k + kp)%Z, kn. repeat split; try lia; try assumption.
      * rewrite py_sum_cons, Hsp, Hk, <- cents_add. reflexivity.
      * rewrite Hall. replace (k + kp + kn)%Z with (k + (kp + kn))%Z by lia.
        reflexivity.
    + exists kp, (k + kn)%Z. repeat split; try lia; try assumption.
      * rewrite py_sum_cons, Hsn, Hk, <- cents_add. reflexivity.
      * rewrite Hall. replace (kp + (k + kn))%Z with (k + (kp + kn))%Z by lia.
        reflexivity.
    + exists kp, kn. repeat split; try lia; try assumption.
      rewrite Hall. replace k with 0%Z by lia. reflexivity.
Qed.

(** Both dashboard totals are non-negative, and what you owe less what
    others owe you is the sum of your net view. *)
Theorem dashboard_totals_sound (self : ExpenseManager.t) (username : string) :
  0 <= fst (ExpenseManager.dashboard_totals self username)
  /\ 0 <= snd (ExpenseManager.dashboard_totals self username)
  /\ fst (ExpenseManager.dashboard_totals self username)
     - snd (ExpenseManager.dashboard_totals self username)
     == py_sum (ExpenseManager.values
                  (ExpenseManager.balances_for self username)).
Proof.
  unfold ExpenseManager.dashboard_totals, ExpenseManager.balances_for.
  cbn [fst snd].
  set (vs := ExpenseManager.values _).
  assert (Forall (fun x => exists k : Z, x == cents k) vs) as Hw.
  { apply Forall_forall. intros x Hx. unfold vs, Ledger.net_for in Hx.
    apply values_whole in Hx. exact Hx. }
  destruct (signed_sums vs Hw) as (kp & kn & Hp & Hn & Hsp & Hsn & Hs).
  assert (- py_sum (List.filter ExpenseManager.is_negative vs) == cents (- kn))
    as Hsn' by (rewrite Hsn, cents_opp; reflexivity).
  rewrite (round2_whole _ kp Hsp), (round2_whole _ (- kn) Hsn'), Hs.
  rewrite Hsp, Hsn, cents_add.
  pose proof (cents_mono 0 kp Hp). pose proof (cents_mono kn 0 Hn).
  change (cents 0) with (0 # 100) in *.
  repeat split; lra.
Qed.

(** * The cache registry and the login check *)

Lemma existsb_find {A : Type} (f : A -> bool) (l : list A) :
  existsb f l = match find f l with Some _ => true | None => false end.
Proof.
  induction l as [| a l IH]; simpl; [reflexivity |].
  destruct (f a); [reflexivity | exact IH].
Qed.

Lemma find_snoc {A : Type} (f : A -> bool) (l : list A) (a : A) :
  find f (l ++ [a])
  = match find f l with
    | Some x => Some x
    | None => if f a then Some a else None
    end.
Proof.
  induction l as [| b l IH]; simpl; [reflexivity |].
  destruct (f b); [reflexivity | exact IH].
Qed.

(** After [add_user], looking the username up gives the record that was
    already registered under it, or else the new one; every other lookup
    is as before. *)
Theorem add_user_get_user (self : CacheService.t)
    (username name password other : string) :
  CacheService.get_user
    (CacheService.add_user username name password self) other
  = if decide (other = username)
    then Some (default (UserData.mk username name password)
                 (CacheService.get_user self username))
    else CacheService.get_user self other.
Proof.
  unfold CacheService.add_user, CacheService.get_user.
  rewrite existsb_find.
  destruct (find _ (CacheService.users self)) as [old |] eqn:Hold.
  - destruct (decide (other = username)) as [-> |]; [| reflexivity].
    rewrite Hold. reflexivity.
  - cbn [CacheService.users]. rewrite find_snoc. cbn [UserData.username].
    destruct (decide (other = username)) as [-> | Hne].
    + rewrite Hold, bool_decide_eq_true_2 by reflexivity. reflexivity.
    + rewrite (bool_decide_eq_false_2 (username = other)) by congruence.
      destruct (find (fun u => bool_decide (UserData.username u = other))
                  (CacheService.users self)); reflexivity.
Qed.

(** The same for groups and their ids. *)
Theorem add_group_get_group (self : CacheService.t) (gid name other : string) :
  CacheService.get_group (CacheService.add_group gid name self) other
  = if decide (other = gid)
    then Some (default (GroupData.mk gid name)
                 (CacheService.get_group self gid))
    else CacheService.get_group self other.
Proof.
  unfold CacheService.add_group, CacheService.get_group.
  rewrite existsb_find.
  destruct (find _ (CacheService.groups self)) as [old |] eqn:Hold.
  - destruct (decide (other = gid)) as [-> |]; [| reflexivity].
    rewrite Hold. reflexivity.
  - cbn [CacheService.groups]. rewrite find_snoc. cbn [GroupData.id].
    destruct (decide (other = gid)) as [-> | Hne].
    + rewrite Hold, bool_decide_eq_true_2 by reflexivity. reflexivity.
    + rewrite (bool_decide_eq_false_2 (gid = other)) by congruence.
      destruct (find (fun g => bool_decide (GroupData.id g = other))
                  (CacheService.groups self)); reflexivity.
Qed.

Lemma find_None_not_in {A : Type} (key : A -> string) (l : list A) (k : string) :
  find (fun a => bool_decide (key a = k)) l = None -> k ∉ map key l.
Proof.
  induction l as [| a l IH]; simpl; intros H.
  - apply not_elem_of_nil.
  - destruct (bool_decide_reflect (key a = k)) as [| Hne]; [discriminate |].
    apply not_elem_of_cons. split; [congruence | apply IH, H].
Qed.

(** [add_user] and [add_group] keep usernames and group ids unique. *)
Theorem add_user_add_group_unique (self : CacheService.t)
    (username name password gid gname : string) :
  NoDup (map UserData.username (CacheService.users self)) ->
  NoDup (map GroupData.id (CacheService.groups self)) ->
  let self' :=
    CacheService.add_group gid gname
      (CacheService.add_user username name password self) in
  NoDup (map UserData.username (CacheService.users self'))
  /\ NoDup (map GroupData.id (CacheService.groups self')).
Proof.
  intros Hu Hg. cbv zeta.
  unfold CacheService.add_group, CacheService.add_user.
  rewrite !existsb_find.
  destruct (find _ (CacheService.users self)) as [u |] eqn:Eu;
    destruct (find _ (CacheService.groups _)) as [g |] eqn:Eg;
    cbn [CacheService.users CacheService.groups] in *; split;
    try assumption.
  all: rewrite map_app; simpl; apply NoDup_app;
    (split; [assumption |]); split;
    [ intros x Hx Hin; apply list_elem_of_singleton in Hin; subst x;
      revert Hx; eapply find_None_not_in; eassumption
    | apply NoDup_singleton ].
Qed.

Lemma add_user_add_group_unique_witness :
  let self' :=
    CacheService.add_group "g1" "Another trip"
      (CacheService.add_user "lee@example.com" "Another Lee" "pass456"
         registry) in
  (NoDup (map UserData.username (CacheService.users self'))
   /\ NoDup (map GroupData.id (CacheService.groups self')))
  /\ map UserData.username (CacheService.users self')
     = ["sam@example.com"; "lee@example.com"]
  /\ map GroupData.id (CacheService.groups self') = ["g1"].
Proof.
  split; [| split; reflexivity].
  apply (add_user_add_group_unique registry
           "lee@example.com" "Another Lee" "pass456" "g1" "Another trip");
    apply (bool_decide_unpack _); vm_compute; exact I.
Defined.

(** [login] accepts exactly the usernames that have a record whose
    ["password"] entry is the password given. *)
Theorem login_correct (self : AuthService.t) (username password : string) :
  AuthService.login self username password = true
  <-> exists rec : gmap string string,
        AuthService._users self !! username = Some rec
        /\ rec !! "password" = Some password.
Proof.
  unfold AuthService.login.
  destruct (AuthService._users self !! username) as [rec |].
  - destruct (decide (rec = ∅)) as [-> | Hne].
    + split; [discriminate |]. intros (rec & [= <-] & H).
      rewrite lookup_empty in H. discriminate.
    + rewrite bool_decide_eq_true. split.
      * intros H. exists rec. done.
      * intros (rec' & [= <-] & H). exact H.
  - split; [discriminate | intros (rec & [=] & _)].
Qed.

(** * The remainder loop on doubles *)

(** On everyday inputs the doubles carry the cents the exact model
    computes. *)
Example EqualSplit_split_ten_among_three :
  Binary64.EqualSplit_split 10
    [("A", 1%float); ("B", 1%float); ("C", 1%float)]
  = Ok [("A", 3.34%float); ("B", 3.33%float); ("C", 3.33%float)]
  /\ EqualSplit_split 10 [("A", 1); ("B", 1); ("C", 1)]
     = Ok [("A", 3.34); ("B", 3.33); ("C", 3.33)].
Proof. split; vm_compute; reflexivity. Qed.

(** An amount that is not a whole number of cents can keep the loop
    running to its cap.  An eighth, for one participant: the share is
    rounded to 0.12, the remainder 0.005 reads as one cent, and after the
    first step it reads as minus one cent while the step stays plus one
    cent; the loop adds a cent at each of its 1000 iterations and returns
    10.12. *)
Theorem EqualSplit_split_eighth_runs_to_cap :
  Binary64.EqualSplit_split 0.125 [("a", 1%float)] = Ok [("a", 10.12%float)]
  /\ Binary64.qround (PrimFloat.sub 0.125 (Binary64.py_sum [0.12%float]))
     = 0.01%float
  /\ Binary64.qround (PrimFloat.sub 0.125 (Binary64.py_sum [0.13%float]))
     = (-0.01)%float.
Proof. repeat split; vm_compute; reflexivity. Qed.

(** The same in Share mode: half a cent over two equal weights rounds to
    nothing for each, the remainder reads as one cent at every step, and
    the 1000 iterations hand out 5.00 to each. *)
Theorem ShareSplit_split_half_cent_runs_to_cap :
  Binary64.ShareSplit_split 0.005 [("a", 1%float); ("b", 1%float)]
  = Ok [("a", 5%float); ("b", 5%float)].
Proof. vm_compute. reflexivity. Qed.
